(** * Variable resolution of the Fortran extension: [resolveVariables]

    A shallow embedding of [resolveVariables] from [src/lib/tools.ts] and the
    properties of it that the specification states.
    Further properties of it and of the other functions of the file
    ([FortranDocumentSelector], [promptForMissingTool], [installPythonTool])
    follow them.

    Conventions of the embedding.
    - A JavaScript string is its sequence of UTF-16 code units; a code unit
      is an [N].  [js "..."] is the string of a literal.
    - What the function reads from its surroundings ([process.platform],
      [process.env], [vscode.workspace], [os.homedir()], the locale's
      lower-casing) is a field of a [Host] record that is passed explicitly.
    - A JavaScript exception is an [Error] value: calls complete with
      [Normal v] or with [Throw e].
    - The [while] loop has no bound in the source.  It is run with a fuel
      argument and answers [None] when the fuel is used up, so that
      non-termination of the source is "[None] for every fuel". *)

From Stdlib Require Import NArith ZArith String Ascii DecimalString.
From stdpp Require Import base option list gmap.

Open Scope N_scope.

(** ** Strings *)

Abbreviation str := (list N) (only parsing).

Definition js (s : string) : str :=
  map N_of_ascii (list_ascii_of_string s).

Definition DOLLAR : N := 36.
Definition DOT : N := 46.
Definition COLON : N := 58.
Definition LBRACE : N := 123.
Definition RBRACE : N := 125.
Definition TILDE : N := 126.

(** The characters the regular expression's [.] refuses (no [s] flag):
    LF, CR, U+2028 and U+2029. *)
Definition isLineTerminator (c : N) : bool :=
  (c =? 10) || (c =? 13) || (c =? 8232) || (c =? 8233).

(** [Array.prototype.join]. *)
Fixpoint join (sep : str) (l : list str) : str :=
  match l with
  | [] => []
  | [x] => x
  | x :: l' => x ++ sep ++ join sep l'
  end.

(** ** Completions *)

Inductive Error : Type :=
  | AssertionError (message : string)
  | TypeError.

Inductive Completion (A : Type) : Type :=
  | Normal (a : A)
  | Throw (e : Error).
Arguments Normal {A} a.
Arguments Throw {A} e.

Definition bindC {A B : Type} (c : Completion A) (k : A → Completion B) : Completion B :=
  match c with
  | Normal a => k a
  | Throw e => Throw e
  end.

Notation "x ←! c ; k" := (bindC c (λ x, k))
  (at level 20, c at level 100, k at level 200, right associativity, only parsing).

(** ** The surroundings of the function *)

(** A [vscode.WorkspaceFolder]: [folder.name] and [folder.uri.fsPath]. *)
Record WorkspaceFolder : Type := {
  folder_name : str;
  fsPath : str;
}.

Record Host : Type := {
  (** [process.platform === 'win32'] *)
  win32 : bool;
  (** [process.env[name]] *)
  process_env : str → option str;
  (** [vscode.workspace.getConfiguration()], and its [get<string>] *)
  getConfiguration : option (str → option str);
  (** [vscode.workspace.workspaceFolders]; [vscode.workspace] itself is a
      namespace of the API and always an object *)
  workspaceFolders : option (list WorkspaceFolder);
  (** [os.homedir()] *)
  homedir : str;
  (** [String.prototype.toLocaleLowerCase] *)
  toLocaleLowerCase : str → str;
}.

(** [envDelimiter] (line 13). *)
Definition envDelimiter (h : Host) : str :=
  if win32 h then js ";" else js ":".

(** A value of the parameter [additionalEnvironment]: [string | string[]]. *)
Inductive EnvValue : Type :=
  | EnvString (v : str)
  | EnvArray (v : list str).

(** ** The placeholder grammar

    [/\$\{((env|config|workspaceFolder|file|fileDirname|fileBasenameNoExtension)(\.|:))?(.*?)\}/g] *)

Inductive VarType : Type :=
  | env
  | config
  | workspaceFolder
  | file
  | fileDirname
  | fileBasenameNoExtension.

Definition varTypeName (k : VarType) : str :=
  match k with
  | env => js "env"
  | config => js "config"
  | workspaceFolder => js "workspaceFolder"
  | file => js "file"
  | fileDirname => js "fileDirname"
  | fileBasenameNoExtension => js "fileBasenameNoExtension"
  end.

(** The alternatives of the second group, in the order the expression tries
    them. *)
Definition varTypes : list VarType :=
  [env; config; workspaceFolder; file; fileDirname; fileBasenameNoExtension].

(** A literal piece of the expression: the rest of [s] after [p]. *)
Fixpoint literal (p s : str) : option str :=
  match p with
  | [] => Some s
  | c :: p' =>
      match s with
      | d :: s' => if c =? d then literal p' s' else None
      | [] => None
      end
  end.

(** [(\.|:)] *)
Definition separator (s : str) : option str :=
  match s with
  | c :: s' => if (c =? DOT) || (c =? COLON) then Some s' else None
  | [] => None
  end.

(** [(.*?)\}]: the lazy star first tries to close, and takes one more
    character that is no line terminator when it cannot.  The result is the
    name and what follows the closing brace. *)
Fixpoint lazyName (s : str) : option (str * str) :=
  match s with
  | [] => None
  | c :: s' =>
      if c =? RBRACE then Some ([], s')
      else if isLineTerminator c then None
      else match lazyName s' with
           | Some (nm, rest) => Some (c :: nm, rest)
           | None => None
           end
  end.

(** [((...)(\.|:))?] taken: the first alternative, in order, after which the
    separator and the remainder of the expression match. *)
Fixpoint qualified (ks : list VarType) (s : str) : option (VarType * (str * str)) :=
  match ks with
  | [] => None
  | k :: ks' =>
      match (literal (varTypeName k) s ≫= separator) ≫= lazyName with
      | Some r => Some (k, r)
      | None => qualified ks' s
      end
  end.

(** The arguments the replacer callback receives for one match: [match],
    [varType] ([None] when the optional group did not take part) and [name]. *)
Record Match : Type := {
  match_ : str;
  varType : option VarType;
  name : str;
}.

(** The expression tried at the start of [s]: the match and the text after
    it.  The optional group is greedy: it is tried first, and skipped only
    when the expression cannot match with it. *)
Definition exec (s : str) : option (Match * str) :=
  body ← literal (js "${") s;
  match qualified varTypes body with
  | Some (k, (nm, rest)) =>
      Some ({| match_ := take (length s - length rest) s;
               varType := Some k; name := nm |}, rest)
  | None =>
      '(nm, rest) ← lazyName body;
      Some ({| match_ := take (length s - length rest) s;
               varType := None; name := nm |}, rest)
  end.

(** ** [resolveVariables] *)

Section body.
Variable h : Host.
Variable additionalEnvironment : option (gmap (list N) EnvValue).
(** The parameter [input], as the callback sees it. *)
Variable input : str.

(** Lines 145-195: the value of [newValue] after the [switch]. *)
Definition newValue (m : Match) : Completion (option str) :=
  match default workspaceFolder (varType m) with
  | env =>
      let fromAdditional :=
        match additionalEnvironment with
        | Some ae =>
            (* the type guards [isString(v)] and [isArrayOfString(v)] of
               ./helper are the two constructors; a missing key reads as
               [undefined], which passes neither *)
            match ae !! name m with
            | Some (EnvString v) => Some v
            | Some (EnvArray v) =>
                if bool_decide (input = match_ m)
                then Some (join (envDelimiter h) v)
                else None
            | None => None
            end
        | None => None
        end in
      Normal (match fromAdditional with
              | Some s => Some s
              | None => process_env h (name m)
              end)
  | config =>
      Normal (match getConfiguration h with
              | Some get => get (name m)
              | None => None
              end)
  | workspaceFolder =>
      match name m, workspaceFolders h with
      | _ :: _, Some folders =>
          match find (λ folder, bool_decide (toLocaleLowerCase h (folder_name folder)
                                             = toLocaleLowerCase h (name m))) folders with
          | Some folder => Normal (Some (fsPath folder))
          | None =>
              match folders with
              | folder :: _ => Normal (Some (fsPath folder))
              | [] => Throw TypeError
              end
          end
      | _, _ => Normal None
      end
  | _ => Throw (AssertionError "unknown varType matched")
  end.

(** The callback of line 141: [newValue !== undefined ? newValue : match]. *)
Definition replacer (m : Match) : Completion str :=
  v ←! newValue m;
  Normal (default (match_ m) v).

(** [ret.replace(regexp(), callback)] with the [g] flag: the leftmost
    match from the current position is replaced and the scan goes on
    after it; a character at which nothing matches is copied.  Every step
    consumes a character, so [length s] steps are enough. *)
Fixpoint replaceFrom (n : nat) (s : str) : Completion str :=
  match n with
  | O => Normal s
  | S n' =>
      match s with
      | [] => Normal []
      | c :: s' =>
          match exec s with
          | Some (m, rest) =>
              v ←! replacer m;
              out ←! replaceFrom n' rest;
              Normal (v ++ out)
          | None =>
              out ←! replaceFrom n' s';
              Normal (c :: out)
          end
      end
  end.

Definition replaceAll (s : str) : Completion str :=
  replaceFrom (length s) s.

(** Lines 137-199: the loop, from the state [(ret, cycleCache)]. *)
Fixpoint resolveLoop (fuel : nat) (ret : str) (cycleCache : gset (list N))
  : option (Completion str) :=
  if decide (ret ∈ cycleCache) then Some (Normal ret)
  else
    match fuel with
    | O => None
    | S fuel' =>
        match replaceAll ret with
        | Normal ret' => resolveLoop fuel' ret' ({[ret]} ∪ cycleCache)
        | Throw e => Some (Throw e)
        end
    end.

(** Line 203: [ret.replace(/^~/g, () => os.homedir())]. *)
Definition replaceHome (ret : str) : str :=
  match ret with
  | c :: ret' => if c =? TILDE then homedir h ++ ret' else ret
  | [] => []
  end.
End body.

Definition resolveVariables (h : Host) (fuel : nat) (input : option str)
    (additionalEnvironment : option (gmap (list N) EnvValue))
  : option (Completion str) :=
  match input with
  | None | Some [] => Some (Normal [])
  | Some input =>
      match resolveLoop h additionalEnvironment input fuel input ∅ with
      | Some (Normal ret) => Some (Normal (replaceHome h ret))
      | other => other
      end
  end.

(** ** Notions the properties are stated with *)

(** The matches one pass of the global replace finds in [s], in order. *)
Fixpoint matchesFrom (n : nat) (s : str) : list Match :=
  match n with
  | O => []
  | S n' =>
      match s with
      | [] => []
      | c :: s' =>
          match exec s with
          | Some (m, rest) => m :: matchesFrom n' rest
          | None => matchesFrom n' s'
          end
      end
  end.

Definition matches (s : str) : list Match := matchesFrom (length s) s.

(** [visits s xs r]: successive passes rewrite [s] into [r], and [xs] are
    the strings they started from, [s] first: the strings the loop has put
    into [cycleCache] when it reaches [r]. *)
Inductive visits (h : Host) (additionalEnvironment : option (gmap (list N) EnvValue))
    (input : str) : str → list str → str → Prop :=
  | visits_here (s : str) : visits h additionalEnvironment input s [] s
  | visits_pass (s s' : str) (xs : list str) (r : str) :
      replaceAll h additionalEnvironment input s = Normal s' →
      visits h additionalEnvironment input s' xs r →
      visits h additionalEnvironment input s (s :: xs) r.


Definition isArray (v : EnvValue) : bool :=
  match v with EnvArray _ => true | EnvString _ => false end.

(** No name of the overlay is bound to a sequence of strings. *)
Definition onlyStrings (additionalEnvironment : option (gmap (list N) EnvValue)) : Prop :=
  match additionalEnvironment with
  | Some ae => map_Forall (λ _ v, isArray v = false) ae
  | None => True
  end.

(** A home directory path that the resolver cannot read as a placeholder or
    as the shorthand again: not empty, no [$], no leading [~]. *)
Definition plainHome (h : Host) : Prop :=
  (DOLLAR ∉ homedir h) ∧ ∃ c p, homedir h = c :: p ∧ c ≠ TILDE.

(** ** Hosts for the examples *)

Definition asciiLower (s : str) : str :=
  map (λ c, if (65 <=? c) && (c <=? 90) then c + 32 else c) s.

Definition mkFolder (n p : string) : WorkspaceFolder :=
  {| folder_name := js n; fsPath := js p |}.

Definition variable (n v : string) : list N * list N := (js n, js v).

Definition exampleHost (folders : option (list WorkspaceFolder))
    (environment : list (list N * list N)) : Host :=
  {| win32 := false;
     process_env := λ n, snd <$> find (λ kv, bool_decide (fst kv = n)) environment;
     getConfiguration := Some (λ _, None);
     workspaceFolders := folders;
     homedir := js "/home/u";
     toLocaleLowerCase := asciiLower |}.

Definition hostFooBar : Host :=
  exampleHost (Some [mkFolder "foo" "/a"; mkFolder "bar" "/b"]) [].
Definition hostBar : Host := exampleHost (Some [mkFolder "bar" "/b"]) [].
Definition hostNoFolders : Host := exampleHost None [].
Definition hostEmptyFolders : Host := exampleHost (Some []) [].

(** [{PATHLIST: ["a", "b"]}] *)
Definition overlayPathlist : option (gmap (list N) EnvValue) :=
  Some {[ js "PATHLIST" := EnvArray [js "a"; js "b"] ]}.

(** [{X: "5"}] *)
Definition overlayX : option (gmap (list N) EnvValue) :=
  Some {[ js "X" := EnvString (js "5") ]}.

(** The arguments of the callback at the reference [${env:PATHLIST}]. *)
Definition refPathlist : Match :=
  {| match_ := js "${env:PATHLIST}"; varType := Some env; name := js "PATHLIST" |}.

(** The arguments of the callback at the reference [${foo}]. *)
Definition refFoo : Match :=
  {| match_ := js "${foo}"; varType := None; name := js "foo" |}.


(** [{Q: "${env:P}", P: ["a", "b"]}] *)
Definition overlayIndirect : option (gmap (list N) EnvValue) :=
  Some {[ js "Q" := EnvString (js "${env:P}");
          js "P" := EnvArray [js "a"; js "b"] ]}.

(** [process.env] with [A] set to [${env:B}], [B] to [${env:A}] and [S] to
    [${env:S}]. *)
Definition hostCyclic : Host :=
  exampleHost None [variable "A" "${env:B}"; variable "B" "${env:A}";
                    variable "S" "${env:S}"].

(** A host on the Windows platform. *)
Definition hostWindows : Host :=
  {| win32 := true;
     process_env := λ _, None;
     getConfiguration := Some (λ _, None);
     workspaceFolders := None;
     homedir := js "C:/Users/u";
     toLocaleLowerCase := asciiLower |}.

(** A host whose home directory path begins with [~]. *)
Definition hostTildeHome : Host :=
  {| win32 := false;
     process_env := λ _, None;
     getConfiguration := Some (λ _, None);
     workspaceFolders := None;
     homedir := js "~x";
     toLocaleLowerCase := asciiLower |}.

(** The three kind words for which the [switch] has no case. *)
Definition fileKinds : list VarType := [file; fileDirname; fileBasenameNoExtension].

(** The reference [${w}], a word between the delimiters and nothing else. *)
Definition reference (w : str) : str := js "${" ++ w ++ js "}".

(** The characters a name can hold: all but the closing brace and the line
    terminators. *)
Definition nameChars (nm : str) : Prop :=
  Forall (λ c, c ≠ RBRACE ∧ isLineTerminator c = false) nm.

(** The arguments of the callback at a reference as it is written: [${],
    a kind and a separator or neither, the name, [}].  Without a kind, the
    name does not begin with a kind and a separator. *)
Definition written (m : Match) : Prop :=
  nameChars (name m) ∧
  match varType m with
  | Some k =>
      ∃ c, (c = DOT ∨ c = COLON) ∧
           match_ m = js "${" ++ varTypeName k ++ c :: name m ++ [RBRACE]
  | None =>
      match_ m = js "${" ++ name m ++ [RBRACE] ∧
      ∀ k c t, c = DOT ∨ c = COLON → name m ≠ varTypeName k ++ c :: t
  end.

(** ** The other functions of [tools.ts]

    Their effects on the editor, the log and the system are recorded as
    the events they perform, in order, with the exception that ended
    them, if one did. *)

Inductive Event : Type :=
  (** [vscode.window.showInformationMessage(msg, ...items)] *)
  | ShowInformationMessage (msg : str) (items : list str)
  (** [vscode.window.showErrorMessage(msg)] *)
  | ShowErrorMessage (msg : str)
  (** [vscode.commands.executeCommand(command, argument)] *)
  | ExecuteCommand (command argument : str)
  (** [cp.spawn(command, args)] *)
  | Spawn (command : str) (args : list str)
  (** [logger.logInfo(msg)] and [logger.logError(msg)] *)
  | LogInfo (msg : str)
  | LogError (msg : str)
  (** [action()] *)
  | Action.

Definition Effect : Type := list Event * option Error.

Definition emit (e : Event) : Effect := ([e], None).
Definition throw (e : Error) : Effect := ([], Some e).

(** Statements one after another: an exception ends the sequence. *)
Fixpoint sequence (l : list Effect) : Effect :=
  match l with
  | [] => ([], None)
  | (es, Some e) :: _ => (es, Some e)
  | (es, None) :: l' => let '(es', r) := sequence l' in (es ++ es', r)
  end.

(** A method call on the optional parameter [logger]: reading the method
    of [undefined] throws. *)
Definition logInfo (logger : bool) (msg : str) : Effect :=
  if logger then emit (LogInfo msg) else throw TypeError.

Definition logError (logger : bool) (msg : str) : Effect :=
  if logger then emit (LogError msg) else throw TypeError.

(** [String.prototype.split] with a separator of one character. *)
Fixpoint split (sep : N) (s : str) : list str :=
  match s with
  | [] => [[]]
  | c :: s' =>
      if c =? sep then [] :: split sep s'
      else match split sep s' with
           | w :: ws => (c :: w) :: ws
           | [] => [[c]]
           end
  end.

Definition SPACE : N := 32.

(** Line 98: the arguments [pip] is spawned with. *)
Definition pipArguments (pyPackage : str) : list str :=
  split SPACE (js "install --user --upgrade " ++ pyPackage).

(** [installPythonTool] (lines 97-114): the process is spawned; the three
    handlers are registered and run later, on the events of the process. *)
Definition installPythonTool (pyPackage : str) (logger : bool) : Effect :=
  emit (Spawn (js "pip") (pipArguments pyPackage)).

(** A number or [null] in a template literal. *)
Definition showCode (code : option Z) : str :=
  match code with
  | Some n => js (NilZero.string_of_int (Z.to_int n))
  | None => js "null"
  end.

(** A string or [null] in a template literal. *)
Definition showSignal (signal : option str) : str :=
  match signal with
  | Some s => s
  | None => js "null"
  end.

(** The handler of [stdout]'s [data] (lines 99-101); [data] is the chunk as
    the template literal converts it to a string. *)
Definition onData (logger : bool) (data : str) : Effect :=
  logInfo logger (js "pip install: " ++ data).

(** The handler of [exit] (lines 102-110): [code] is [null] when the
    process was ended by a signal. *)
Definition onExit (pyPackage : str) (logger : bool)
    (code : option Z) (signal : option str) : Effect :=
  if bool_decide (code ≠ Some 0%Z) then
    logError logger
      (js "Python package " ++ pyPackage ++ js " failed to install with code: "
       ++ showCode code ++ js ", signal: " ++ showSignal signal)
  else
    logInfo logger (js "Successfully installed " ++ pyPackage ++ js ".").

(** The handler of [error] (lines 111-113); [err] is the error as the
    template literal converts it to a string. *)
Definition onError (logger : bool) (err : str) : Effect :=
  logError logger err.

(** The callback of [promptForMissingTool] (lines 65-87), run with the
    item the user selected, [undefined] when the message was dismissed.
    [action] tells whether the optional parameter is supplied. *)
Definition afterSelection (tool toolType : str) (logger action : bool)
    (selected : option str) : Effect :=
  if bool_decide (selected = Some (js "Install")) then
    if bool_decide (toolType = js "Python") then
      installPythonTool tool logger
    else if bool_decide (toolType = js "VSExt") then
      sequence [
        logInfo logger (js "Installing VS Marketplace Extension with id: " ++ tool);
        emit (ExecuteCommand (js "extension.open") tool);
        emit (ExecuteCommand (js "workbench.extensions.installExtension") tool);
        logInfo logger (js "Extension " ++ tool ++ js " successfully installed") ]
    else
      sequence [
        logError logger (js "Failed to install tool: " ++ tool);
        emit (ShowErrorMessage (js "Failed to install tool: " ++ tool)) ]
  else if bool_decide (selected = Some (js "Don't Show Again")) then
    if action then emit Action else throw TypeError
  else ([], None).

(** [promptForMissingTool] (lines 56-88), with the answer of the user. *)
Definition promptForMissingTool (tool msg toolType : str) (opts : list str)
    (logger action : bool) (selected : option str) : Effect :=
  sequence [
    emit (ShowInformationMessage msg opts);
    afterSelection tool toolType logger action selected ].

(** A [vscode.DocumentFilter]. *)
Record DocumentFilter : Type := {
  scheme : str;
  language : str;
  pattern : option str;
}.

(** [FortranDocumentSelector] (lines 26-38). *)
Definition FortranDocumentSelector (folder : option WorkspaceFolder)
  : list DocumentFilter :=
  match folder with
  | Some folder =>
      [ {| scheme := js "file"; language := js "FortranFreeForm";
           pattern := Some (fsPath folder ++ js "/**/*") |};
        {| scheme := js "file"; language := js "FortranFixedForm";
           pattern := Some (fsPath folder ++ js "/**/*") |} ]
  | None =>
      [ {| scheme := js "file"; language := js "FortranFreeForm"; pattern := None |};
        {| scheme := js "file"; language := js "FortranFixedForm"; pattern := None |} ]
  end.

(** An event that installs something. *)
Definition installs (e : Event) : bool :=
  match e with
  | Spawn _ _ | ExecuteCommand _ _ => true
  | _ => false
  end.

(** ** The grammar: what a match consumes *)

Lemma literal_Some (p s r : list N) : literal p s = Some r → s = p ++ r.
Proof.
  revert s. induction p as [|c p IH]; intros [|d s] H; simpl in *; try congruence.
  destruct (N.eqb_spec c d) as [->|]; [|done]. by rewrite (IH s H).
Qed.

Lemma literal_app (p r : list N) : literal p (p ++ r) = Some r.
Proof. induction p as [|c p IH]; simpl; [done|]. by rewrite N.eqb_refl. Qed.

Lemma separator_Some (s r : list N) :
  separator s = Some r → ∃ c, s = c :: r ∧ (c = DOT ∨ c = COLON).
Proof.
  destruct s as [|c s]; simpl; [done|].
  destruct (N.eqb_spec c DOT) as [->|]; simpl.
  { intros [= ->]. eauto. }
  destruct (N.eqb_spec c COLON) as [->|]; simpl; [|done].
  intros [= ->]. eauto.
Qed.

Lemma lazyName_Some (s nm r : list N) :
  lazyName s = Some (nm, r) → s = nm ++ RBRACE :: r.
Proof.
  revert nm. induction s as [|c s IH]; intros nm; simpl; [done|].
  destruct (N.eqb_spec c RBRACE) as [->|].
  { by intros [= <- <-]. }
  destruct (isLineTerminator c); [done|].
  destruct (lazyName s) as [[nm' r']|]; [|done].
  intros [= <- <-]. by rewrite (IH nm' eq_refl).
Qed.

Lemma qualified_Some (ks : list VarType) (s nm r : list N) (k : VarType) :
  qualified ks s = Some (k, (nm, r)) →
  k ∈ ks ∧ ∃ c, s = varTypeName k ++ c :: nm ++ RBRACE :: r ∧ (c = DOT ∨ c = COLON).
Proof.
  induction ks as [|k' ks IH]; simpl; [done|].
  destruct (literal (varTypeName k') s) as [s1|] eqn:H1; simpl.
  - destruct (separator s1) as [s2|] eqn:H2; simpl.
    + destruct (lazyName s2) as [[nm' r']|] eqn:H3.
      * intros [= <- <- <-]. split; [left|].
        apply literal_Some in H1 as ->.
        apply separator_Some in H2 as (c & -> & Hc).
        apply lazyName_Some in H3 as ->. eauto.
      * intros H. destruct (IH H) as [? ?]. split; [by right|done].
    + intros H. destruct (IH H) as [? ?]. split; [by right|done].
  - intros H. destruct (IH H) as [? ?]. split; [by right|done].
Qed.

Arguments qualified : simpl never.

Lemma take_consumed (x rest : list N) :
  take (length (x ++ rest) - length rest) (x ++ rest) = x.
Proof.
  rewrite length_app.
  replace (length x + length rest - length rest)%nat with (length x) by lia.
  apply take_app_length.
Qed.

(** A match starts with [${], ends with [}], holds the name before the
    brace and, when the optional group took part, the kind and a separator
    before the name; [exec] splits the string into the match and the rest. *)
Lemma exec_Some (s rest : list N) (m : Match) :
  exec s = Some (m, rest) →
  s = match_ m ++ rest ∧
  ∃ pre, match_ m = DOLLAR :: LBRACE :: pre ++ name m ++ [RBRACE] ∧
         match varType m with
         | Some k => ∃ c, pre = varTypeName k ++ [c] ∧ (c = DOT ∨ c = COLON)
         | None => pre = []
         end.
Proof.
  unfold exec. destruct (literal (js "${") s) as [body|] eqn:Hl; simpl; [|done].
  apply literal_Some in Hl.
  destruct (qualified varTypes body) as [[k [nm r]]|] eqn:Hq.
  - intros [= <- <-]. simpl.
    apply qualified_Some in Hq as (_ & c & -> & Hc).
    assert (s = (DOLLAR :: LBRACE :: (varTypeName k ++ [c]) ++ nm ++ [RBRACE]) ++ r) as Hs.
    { rewrite Hl. simpl. do 2 f_equal. by rewrite <- !app_assoc. }
    assert (take (length s - length r) s
            = DOLLAR :: LBRACE :: (varTypeName k ++ [c]) ++ nm ++ [RBRACE]) as ->.
    { rewrite Hs at 1 2. apply take_consumed. }
    split; [done|]. exists (varTypeName k ++ [c]). eauto.
  - destruct (lazyName body) as [[nm r]|] eqn:Hn; simpl; [|done].
    intros [= <- <-]. simpl.
    apply lazyName_Some in Hn as ->.
    assert (s = (DOLLAR :: LBRACE :: [] ++ nm ++ [RBRACE]) ++ r) as Hs.
    { rewrite Hl. simpl. do 2 f_equal. by rewrite <- !app_assoc. }
    assert (take (length s - length r) s
            = DOLLAR :: LBRACE :: [] ++ nm ++ [RBRACE]) as ->.
    { rewrite Hs at 1 2. apply take_consumed. }
    split; [done|]. by exists [].
Qed.

Lemma exec_shorter (s rest : list N) (m : Match) :
  exec s = Some (m, rest) → (length rest < length s)%nat.
Proof.
  intros H. apply exec_Some in H as (Hs & pre & Hm & _).
  rewrite Hs, Hm, length_app. simpl. lia.
Qed.

(** Nothing matches at a character other than [$]. *)
Lemma exec_not_dollar (c : N) (s : list N) : c ≠ DOLLAR → exec (c :: s) = None.
Proof.
  intros Hc. unfold exec. change (js "${") with [DOLLAR; LBRACE].
  cbn [literal]. by destruct (N.eqb_spec DOLLAR c) as [<-|].
Qed.

(** What the expression reads in some strings: a kind needs its separator;
    [file] does not hide the longer kinds that begin with it; the name ends
    at the first closing brace and may be empty; a line terminator before
    the closing brace prevents the match. *)
Example exec_examples :
  exec (js "${env:HOME}/bin")
  = Some ({| match_ := js "${env:HOME}"; varType := Some env; name := js "HOME" |},
          js "/bin") ∧
  exec (js "${fileDirname.x}")
  = Some ({| match_ := js "${fileDirname.x}"; varType := Some fileDirname;
             name := js "x" |}, []) ∧
  exec (js "${envHOME}")
  = Some ({| match_ := js "${envHOME}"; varType := None; name := js "envHOME" |}, []) ∧
  exec (js "${a${b}}")
  = Some ({| match_ := js "${a${b}"; varType := None; name := js "a${b" |}, js "}") ∧
  exec (js "${}")
  = Some ({| match_ := js "${}"; varType := None; name := [] |}, []) ∧
  exec (js "${a" ++ [10] ++ js "b}") = None ∧
  exec (js "${env:a" ++ [8232] ++ js "b}") = None ∧
  exec (js "$ {a}") = None.
Proof. repeat split; vm_compute; reflexivity. Qed.

(** ** One pass of the global replace *)

Section pass.
Variable h : Host.
Variable additionalEnvironment : option (gmap (list N) EnvValue).
Variable input : list N.

Local Abbreviation passFrom := (replaceFrom h additionalEnvironment input).
Local Abbreviation pass := (replaceAll h additionalEnvironment input).
Local Abbreviation callback := (replacer h additionalEnvironment input).

(** The step count of [replaceFrom] is immaterial once it covers the
    string. *)
Lemma replaceFrom_steps (n n' : nat) (s : list N) :
  (length s ≤ n)%nat → (length s ≤ n')%nat → passFrom n s = passFrom n' s.
Proof.
  revert n' s. induction n as [|n IH]; intros n' s Hn Hn'.
  { destruct s; [|simpl in Hn; lia]. by destruct n'. }
  destruct s as [|c s]; [by destruct n'|].
  destruct n' as [|n']; simpl in Hn, Hn'; [lia|]. simpl.
  destruct (exec (c :: s)) as [[m rest]|] eqn:He.
  - pose proof (exec_shorter _ _ _ He) as Hlt. simpl in Hlt.
    by rewrite (IH n' rest) by lia.
  - by rewrite (IH n' s) by lia.
Qed.

Lemma replaceFrom_enough (n : nat) (s : list N) :
  (length s ≤ n)%nat → passFrom n s = pass s.
Proof. intros Hn. by apply replaceFrom_steps. Qed.

Lemma replaceAll_nil : pass [] = Normal [].
Proof. done. Qed.

Lemma replaceAll_match (s rest : list N) (m : Match) :
  exec s = Some (m, rest) →
  pass s = (v ←! callback m; out ←! pass rest; Normal (v ++ out)).
Proof.
  intros He. pose proof (exec_shorter _ _ _ He) as Hlt.
  destruct s as [|c s]; [done|].
  unfold replaceAll at 1. simpl. rewrite He.
  simpl in Hlt. by rewrite replaceFrom_enough by lia.
Qed.

Lemma replaceAll_copy (c : N) (s : list N) :
  exec (c :: s) = None →
  pass (c :: s) = (out ←! pass s; Normal (c :: out)).
Proof.
  intros He. unfold replaceAll at 1. simpl. by rewrite He.
Qed.

(** Text without a [$] is copied, and the scan of what follows it does not
    depend on it. *)
Lemma replaceAll_plain_prefix (pre s : list N) :
  DOLLAR ∉ pre →
  pass (pre ++ s) = (out ←! pass s; Normal (pre ++ out)).
Proof.
  induction pre as [|c pre IH]; intros Hpre; simpl.
  - by destruct (pass s).
  - rewrite replaceAll_copy by (apply exec_not_dollar; set_solver).
    rewrite IH by set_solver. by destruct (pass s).
Qed.

Lemma replaceAll_plain (s : list N) : DOLLAR ∉ s → pass s = Normal s.
Proof.
  intros Hs. rewrite <- (app_nil_r s) at 1.
  rewrite replaceAll_plain_prefix by done. simpl. by rewrite app_nil_r.
Qed.

End pass.

(** ** The loop *)

Section loop.
Variable h : Host.
Variable additionalEnvironment : option (gmap (list N) EnvValue).
Variable input : list N.

Local Abbreviation pass := (replaceAll h additionalEnvironment input).
Local Abbreviation loop := (resolveLoop h additionalEnvironment input).
Local Abbreviation visited := (visits h additionalEnvironment input).

Lemma resolveLoop_seen (fuel : nat) (ret : list N) (cycleCache : gset (list N)) :
  ret ∈ cycleCache → loop fuel ret cycleCache = Some (Normal ret).
Proof. intros Hin. destruct fuel; simpl; by rewrite decide_True. Qed.

Lemma resolveLoop_fresh (fuel : nat) (ret : list N) (cycleCache : gset (list N)) :
  ret ∉ cycleCache →
  loop (S fuel) ret cycleCache =
    match pass ret with
    | Normal ret' => loop fuel ret' ({[ret]} ∪ cycleCache)
    | Throw e => Some (Throw e)
    end.
Proof. intros Hin. simpl. by rewrite decide_False. Qed.


(** The loop returns [r] exactly when passes lead from [ret] to [r] through
    pairwise different strings that are not in the cache, and [r] is the
    first string that is in the cache or among them. *)
Lemma resolveLoop_Normal (fuel : nat) (ret r : list N) (cycleCache : gset (list N)) :
  loop fuel ret cycleCache = Some (Normal r) ↔
  ∃ xs, visited ret xs r ∧ NoDup xs ∧ (∀ x, x ∈ xs → x ∉ cycleCache) ∧
        (r ∈ cycleCache ∨ r ∈ xs) ∧ (length xs ≤ fuel)%nat.
Proof.
  split.
  - revert ret cycleCache. induction fuel as [|fuel IH]; intros ret cycleCache Hl.
    + simpl in Hl. destruct (decide (ret ∈ cycleCache)) as [Hin|]; [|done].
      injection Hl as <-. exists []. split_and!; try done.
      * constructor.
      * constructor.
      * set_solver.
      * by left.
    + destruct (decide (ret ∈ cycleCache)) as [Hin|Hin].
      { rewrite resolveLoop_seen in Hl by done. injection Hl as <-.
        exists []. split_and!; [constructor|constructor|set_solver|by left|simpl; lia]. }
      rewrite resolveLoop_fresh in Hl by done.
      destruct (pass ret) as [ret'|e] eqn:Hp; [|done].
      apply IH in Hl as (xs & Hv & Hnd & Hfresh & Hr & Hlen).
      exists (ret :: xs). split_and!.
      * by econstructor.
      * constructor; [|done]. intros Hx. apply Hfresh in Hx.
        apply Hx, elem_of_union. left. by apply elem_of_singleton.
      * intros x [->|Hx]%elem_of_cons; [done|]. apply Hfresh in Hx.
        intros Hc. apply Hx, elem_of_union. by right.
      * destruct Hr as [Hr|Hr]; [|right; by right].
        apply elem_of_union in Hr as [->%elem_of_singleton|Hr]; [right; by left|by left].
      * simpl. lia.
  - intros (xs & Hv & Hnd & Hfresh & Hr & Hlen).
    revert fuel cycleCache Hnd Hfresh Hr Hlen.
    induction Hv as [s|s s' xs r Hp Hv IH]; intros fuel cycleCache Hnd Hfresh Hr Hlen.
    + destruct Hr as [Hr|Hr]; [by apply resolveLoop_seen|by apply elem_of_nil in Hr].
    + destruct fuel as [|fuel]; simpl in Hlen; [lia|].
      apply NoDup_cons in Hnd as [Hs Hnd].
      rewrite resolveLoop_fresh by (apply Hfresh; by left). rewrite Hp.
      apply IH; [done| | |lia].
      * intros x Hx [Hc%elem_of_singleton|Hc]%elem_of_union; [by subst|].
        apply (Hfresh x); [by right|done].
      * destruct Hr as [Hr|[->|Hr]%elem_of_cons]; [left|left|by right];
          apply elem_of_union; [by right|left; by apply elem_of_singleton].
Qed.


(** The strings visited from a visited string on. *)
Lemma visits_from (s x r : list N) (pre post : list (list N)) :
  visited s (pre ++ x :: post) r → visited x (x :: post) r.
Proof.
  revert s. induction pre as [|y pre IH]; intros s Hv; simpl in Hv.
  - by inversion Hv; subst.
  - inversion Hv; subst. eauto.
Qed.

(** The result of the loop is a string the loop returns itself at once:
    it lies on the cycle that ended the loop. *)
Lemma resolveLoop_result_again (fuel : nat) (s r : list N) :
  loop fuel s ∅ = Some (Normal r) →
  ∃ post, visited r (r :: post) r ∧ NoDup (r :: post).
Proof.
  intros (xs & Hv & Hnd & _ & Hr & _)%resolveLoop_Normal.
  destruct Hr as [Hr|Hr]; [set_solver|].
  apply list_elem_of_split in Hr as (pre & post & ->).
  exists post. split; [by eapply visits_from|].
  by apply NoDup_app in Hnd as (_ & _ & Hnd).
Qed.

End loop.

(** ** Absent and empty input *)

(** C10: for an absent input and for the empty string the result is the
    empty string, at once: no pass of the loop is run (the answer needs no
    fuel) and the home directory is not used (the answer is the same on
    every host). *)
Theorem resolveVariables_absent_or_empty (h : Host) (fuel : nat)
    (additionalEnvironment : option (gmap (list N) EnvValue)) :
  resolveVariables h fuel None additionalEnvironment = Some (Normal []) ∧
  resolveVariables h fuel (Some []) additionalEnvironment = Some (Normal []).
Proof. split; reflexivity. Qed.

(** ** The home directory shorthand *)

Lemma replaceHome_tilde (h : Host) (t : list N) :
  replaceHome h (TILDE :: t) = homedir h ++ t.
Proof. done. Qed.

Lemma replaceHome_other (h : Host) (r : list N) :
  (∀ t, r ≠ TILDE :: t) → replaceHome h r = r.
Proof.
  intros Hr. destruct r as [|c t]; [done|]. simpl.
  destruct (N.eqb_spec c TILDE) as [->|]; [|done]. by destruct (Hr t).
Qed.

(** A string without [$] holds no placeholder: the loop ends after one
    pass that changes nothing, and only the shorthand is applied. *)
Lemma resolveVariables_plain (h : Host) (fuel : nat) (s : list N)
    (additionalEnvironment : option (gmap (list N) EnvValue)) :
  s ≠ [] → DOLLAR ∉ s →
  resolveVariables h (S fuel) (Some s) additionalEnvironment
  = Some (Normal (replaceHome h s)).
Proof.
  intros Hs Hd. unfold resolveVariables. destruct s as [|c s]; [done|].
  rewrite resolveLoop_fresh by apply not_elem_of_empty.
  rewrite replaceAll_plain by done.
  rewrite resolveLoop_seen; [done|].
  apply elem_of_union. left. by apply elem_of_singleton.
Qed.

(** C8: the shorthand is applied once, to the string [r] the loop ended
    with: a leading [~] of [r] is replaced by the home directory path and
    the rest of [r] is kept as it is (also when the path itself begins with
    [~]); a string that does not begin with [~] is returned unchanged,
    whatever [~] it holds elsewhere. *)
Theorem home_shorthand_after_loop (h : Host) (fuel : nat) (s r : list N)
    (additionalEnvironment : option (gmap (list N) EnvValue)) :
  s ≠ [] →
  resolveLoop h additionalEnvironment s fuel s ∅ = Some (Normal r) →
  (∀ t, r = TILDE :: t →
     resolveVariables h fuel (Some s) additionalEnvironment
     = Some (Normal (homedir h ++ t))) ∧
  ((∀ t, r ≠ TILDE :: t) →
     resolveVariables h fuel (Some s) additionalEnvironment = Some (Normal r)).
Proof.
  intros Hs Hl. unfold resolveVariables.
  destruct s as [|c s]; [done|]. rewrite Hl. split.
  - intros t ->. by rewrite replaceHome_tilde.
  - intros Hr. by rewrite replaceHome_other.
Qed.

Lemma home_shorthand_after_loop_witness :
  resolveVariables hostBar 1 (Some (js "~/proj")) None
  = Some (Normal (js "/home/u/proj")).
Proof.
  refine (proj1 (home_shorthand_after_loop hostBar 1 (js "~/proj") (js "~/proj")
                   None _ _) (js "/proj") _).
  - vm_compute. discriminate.
  - vm_compute. reflexivity.
  - vm_compute. reflexivity.
Defined.

(** The two examples of the specification, on every host. *)
Example home_shorthand_at_start (h : Host) (fuel : nat)
    (additionalEnvironment : option (gmap (list N) EnvValue)) :
  resolveVariables h (S fuel) (Some (js "~/proj")) additionalEnvironment
  = Some (Normal (homedir h ++ js "/proj")).
Proof.
  rewrite resolveVariables_plain; [done|done|].
  vm_compute. intros H. repeat (apply elem_of_cons in H as [H|H]; [done|]).
  by apply elem_of_nil in H.
Qed.

Example home_shorthand_elsewhere (h : Host) (fuel : nat)
    (additionalEnvironment : option (gmap (list N) EnvValue)) :
  resolveVariables h (S fuel) (Some (js "a~/proj")) additionalEnvironment
  = Some (Normal (js "a~/proj")).
Proof.
  rewrite resolveVariables_plain; [done|done|].
  vm_compute. intros H. repeat (apply elem_of_cons in H as [H|H]; [done|]).
  by apply elem_of_nil in H.
Qed.

(** ** The kinds of reference *)

(** C4: an [env] reference.  A string under its name in the overlay is the
    value, whatever the environment holds; a sequence under its name is
    joined with the platform's delimiter ([;] on win32, [:] elsewhere)
    when the match is the whole of the original input; when it is not, the
    sequence is not used: the value is the one of [process.env], and the
    reference stays as it is when there is none. *)
Theorem env_reference (h : Host) (ae : gmap (list N) EnvValue)
    (input : list N) (m : Match) :
  varType m = Some env →
  (∀ v, ae !! name m = Some (EnvString v) →
        replacer h (Some ae) input m = Normal v) ∧
  (∀ l, ae !! name m = Some (EnvArray l) → match_ m = input →
        replacer h (Some ae) input m
        = Normal (join (if win32 h then js ";" else js ":") l)) ∧
  (∀ l, ae !! name m = Some (EnvArray l) → match_ m ≠ input →
        replacer h (Some ae) input m
        = Normal (match process_env h (name m) with
                  | Some v => v
                  | None => match_ m
                  end)).
Proof.
  intros Hk. unfold replacer, newValue. rewrite Hk. simpl. split_and!.
  - intros v ->. done.
  - intros l -> ->. by rewrite bool_decide_eq_true_2.
  - intros l -> Hne. rewrite bool_decide_eq_false_2 by done.
    by destruct (process_env h (name m)).
Qed.

Lemma env_reference_witness :
  replacer hostBar overlayPathlist (js "${env:PATHLIST}") refPathlist
  = Normal (js "a:b").
Proof.
  refine (proj1 (proj2 (env_reference hostBar _ (js "${env:PATHLIST}")
                          refPathlist _)) [js "a"; js "b"] _ _).
  - reflexivity.
  - vm_compute. reflexivity.
  - reflexivity.
Defined.

(** The examples of the specification for [env] references. *)
Example env_overlay_string :
  resolveVariables (exampleHost None [variable "X" "ambient"]) 2
    (Some (js "${env:X}")) overlayX = Some (Normal (js "5")).
Proof. vm_compute. reflexivity. Qed.

Example env_overlay_sequence_whole :
  resolveVariables hostBar 2 (Some (js "${env:PATHLIST}")) overlayPathlist
  = Some (Normal (js "a:b")).
Proof. vm_compute. reflexivity. Qed.

Example env_overlay_sequence_win32 :
  resolveVariables hostWindows 2 (Some (js "${env:PATHLIST}")) overlayPathlist
  = Some (Normal (js "a;b")).
Proof. vm_compute. reflexivity. Qed.

Example env_overlay_sequence_embedded :
  resolveVariables hostBar 1 (Some (js "x=${env:PATHLIST}")) overlayPathlist
  = Some (Normal (js "x=${env:PATHLIST}")) ∧
  resolveVariables (exampleHost None [variable "PATHLIST" "/bin"]) 2
    (Some (js "x=${env:PATHLIST}")) overlayPathlist
  = Some (Normal (js "x=/bin")).
Proof. split; vm_compute; reflexivity. Qed.





(** The examples of the specification for a reference without a kind. *)
Example unqualified_named_folder :
  resolveVariables hostFooBar 2 (Some (js "${foo}")) None = Some (Normal (js "/a")).
Proof. vm_compute. reflexivity. Qed.

Example unqualified_first_folder :
  resolveVariables hostBar 2 (Some (js "${foo}")) None = Some (Normal (js "/b")).
Proof. vm_compute. reflexivity. Qed.

Example unqualified_no_folders :
  resolveVariables hostNoFolders 1 (Some (js "${foo}")) None
  = Some (Normal (js "${foo}")).
Proof. vm_compute. reflexivity. Qed.

(** An environment variable of the name is not looked at. *)
Example unqualified_not_environment :
  resolveVariables (exampleHost None [variable "foo" "from-env"]) 1
    (Some (js "${foo}")) (Some {[ js "foo" := EnvString (js "from-overlay") ]})
  = Some (Normal (js "${foo}")).
Proof. vm_compute. reflexivity. Qed.

(** A string that is one reference: the pass is the callback at it. *)
Lemma replaceAll_one_reference (h : Host)
    (additionalEnvironment : option (gmap (list N) EnvValue))
    (input s : list N) (m : Match) :
  exec s = Some (m, []) →
  replaceAll h additionalEnvironment input s = replacer h additionalEnvironment input m.
Proof.
  intros He. rewrite (replaceAll_match _ _ _ _ _ _ He), replaceAll_nil.
  destruct (replacer h additionalEnvironment input m); simpl; [|done].
  by rewrite app_nil_r.
Qed.

Lemma resolveVariables_nonempty (h : Host) (fuel : nat) (s : list N)
    (additionalEnvironment : option (gmap (list N) EnvValue)) :
  s ≠ [] →
  resolveVariables h fuel (Some s) additionalEnvironment
  = match resolveLoop h additionalEnvironment s fuel s ∅ with
    | Some (Normal ret) => Some (Normal (replaceHome h ret))
    | other => other
    end.
Proof. by destruct s. Qed.

(** An exception of the first pass is the outcome of the call. *)
Lemma resolveVariables_first_pass_throws (h : Host) (fuel : nat) (s : list N)
    (additionalEnvironment : option (gmap (list N) EnvValue)) (e : Error) :
  replaceAll h additionalEnvironment s s = Throw e →
  resolveVariables h (S fuel) (Some s) additionalEnvironment = Some (Throw e).
Proof.
  intros Hp. unfold resolveVariables. destruct s as [|c s]; [done|].
  rewrite resolveLoop_fresh by apply not_elem_of_empty. by rewrite Hp.
Qed.

(** A first pass that changes nothing ends the loop. *)
Lemma resolveVariables_first_pass_same (h : Host) (fuel : nat) (s : list N)
    (additionalEnvironment : option (gmap (list N) EnvValue)) :
  s ≠ [] →
  replaceAll h additionalEnvironment s s = Normal s →
  resolveVariables h (S fuel) (Some s) additionalEnvironment
  = Some (Normal (replaceHome h s)).
Proof.
  intros Hs Hp. unfold resolveVariables. destruct s as [|c s]; [done|].
  rewrite resolveLoop_fresh by apply not_elem_of_empty. rewrite Hp.
  rewrite resolveLoop_seen; [done|].
  apply elem_of_union. left. by apply elem_of_singleton.
Qed.

(** The callback at a named folder reference with an empty list of
    folders. *)
Lemma replacer_empty_list (h : Host)
    (additionalEnvironment : option (gmap (list N) EnvValue))
    (input : list N) (m : Match) :
  default workspaceFolder (varType m) = workspaceFolder →
  name m ≠ [] →
  workspaceFolders h = Some [] →
  replacer h additionalEnvironment input m = Throw TypeError.
Proof.
  intros Hd Hn Hw. unfold replacer, newValue. rewrite Hd, Hw.
  by destruct (name m).
Qed.

(** C6: a reference of kind [workspaceFolder], or without a kind, with a
    name that is not empty, when the list of folders is present and empty:
    no folder has the name, the first element of the list is [undefined],
    and reading its [uri] throws.  The callback completes normally exactly
    when the list is absent or has a folder. *)
Theorem workspaceFolder_empty_list (h : Host)
    (additionalEnvironment : option (gmap (list N) EnvValue))
    (input : list N) (m : Match) :
  varType m = None ∨ varType m = Some workspaceFolder →
  name m ≠ [] →
  (workspaceFolders h = Some [] →
     replacer h additionalEnvironment input m = Throw TypeError) ∧
  ((∃ v, replacer h additionalEnvironment input m = Normal v) ↔
     workspaceFolders h ≠ Some []).
Proof.
  intros Hk Hn.
  assert (default workspaceFolder (varType m) = workspaceFolder) as Hd.
  { by destruct Hk as [->| ->]. }
  split; [by apply replacer_empty_list|]. split.
  - intros [v Hv] Hw. by rewrite replacer_empty_list in Hv.
  - intros Hw. unfold replacer, newValue. rewrite Hd.
    destruct (name m) as [|c nm] eqn:Hnm; [done|].
    destruct (workspaceFolders h) as [[|folder folders]|]; [done| |simpl; eauto].
    destruct (find _ (folder :: folders)); simpl; eauto.
Qed.

Lemma workspaceFolder_empty_list_witness :
  replacer hostEmptyFolders None (js "${foo}") refFoo = Throw TypeError.
Proof.
  refine (proj1 (workspaceFolder_empty_list hostEmptyFolders None (js "${foo}")
                   refFoo _ _) _).
  - left. reflexivity.
  - vm_compute. discriminate.
  - reflexivity.
Defined.

(** With an empty list of folders the call itself ends in the exception,
    on every host. *)
Example empty_list_call (h : Host) (fuel : nat)
    (additionalEnvironment : option (gmap (list N) EnvValue)) :
  workspaceFolders h = Some [] →
  resolveVariables h (S fuel) (Some (js "${foo}")) additionalEnvironment
  = Some (Throw TypeError).
Proof.
  intros Hw. apply resolveVariables_first_pass_throws.
  rewrite (replaceAll_one_reference _ _ _ _ refFoo) by (vm_compute; reflexivity).
  by apply replacer_empty_list.
Qed.

(** ** References without a value *)

Lemma replaceFrom_unresolved (h : Host)
    (additionalEnvironment : option (gmap (list N) EnvValue))
    (input : list N) (n : nat) (s : list N) :
  (∀ m, m ∈ matchesFrom n s → newValue h additionalEnvironment input m = Normal None) →
  replaceFrom h additionalEnvironment input n s = Normal s.
Proof.
  revert s. induction n as [|n IH]; intros s Hm; [done|].
  destruct s as [|c s]; [done|]. simpl in *.
  destruct (exec (c :: s)) as [[m rest]|] eqn:He.
  - unfold replacer. rewrite (Hm m) by (by left). simpl.
    rewrite IH by (intros m' Hm'; apply Hm; by right). simpl.
    apply exec_Some in He as [He _]. by rewrite He.
  - by rewrite IH.
Qed.

(** A reference for which the [switch] leaves [newValue] undefined is
    replaced by its own text.  So a pass over a string at all of whose
    references the [switch] completes and leaves [newValue] undefined
    returns the string as it is, and the call returns it after the home
    directory shorthand. *)
Theorem unresolved_reference_kept (h : Host)
    (additionalEnvironment : option (gmap (list N) EnvValue)) (input : list N) :
  (∀ m, newValue h additionalEnvironment input m = Normal None →
        replacer h additionalEnvironment input m = Normal (match_ m)) ∧
  (∀ s, (∀ m, m ∈ matches s → newValue h additionalEnvironment input m = Normal None) →
        replaceAll h additionalEnvironment input s = Normal s) ∧
  (∀ fuel, input ≠ [] →
     (∀ m, m ∈ matches input → newValue h additionalEnvironment input m = Normal None) →
     resolveVariables h (S fuel) (Some input) additionalEnvironment
     = Some (Normal (replaceHome h input))).
Proof.
  split_and!.
  - intros m Hm. unfold replacer. by rewrite Hm.
  - intros s Hs. by apply replaceFrom_unresolved.
  - intros fuel Hi Hs. apply resolveVariables_first_pass_same; [done|].
    by apply replaceFrom_unresolved.
Qed.

Lemma unresolved_reference_kept_witness :
  resolveVariables hostNoFolders 1
    (Some (js "${config:nonexistent.key} ${env:A}${b}")) None
  = Some (Normal (js "${config:nonexistent.key} ${env:A}${b}")).
Proof.
  refine (proj2 (proj2 (unresolved_reference_kept hostNoFolders None
            (js "${config:nonexistent.key} ${env:A}${b}"))) 0%nat _ _).
  - vm_compute. discriminate.
  - intros m Hm. vm_compute in Hm.
    repeat (apply elem_of_cons in Hm as [->|Hm]; [vm_compute; reflexivity|]).
    by apply elem_of_nil in Hm.
Defined.

Example unresolved_config_reference :
  resolveVariables hostNoFolders 1 (Some (js "${config:nonexistent.key}")) None
  = Some (Normal (js "${config:nonexistent.key}")).
Proof. vm_compute. reflexivity. Qed.

(** C7: references without a value do not keep the call from throwing.
    On every host and with every overlay the call on
    [${config:nonexistent.key} ${file:x}] ends in the assertion failure of
    the [default] branch: the [config] reference is handled, and the
    callback at [${file:x}], a reference for which the code has no value
    either, throws instead of returning the text of the reference.  With
    a list of folders that is present and empty the same happens, with a
    [TypeError], at a folder reference that no folder can resolve. *)
Theorem unresolved_beside_throwing_reference (h : Host) (fuel : nat)
    (additionalEnvironment : option (gmap (list N) EnvValue)) :
  resolveVariables h (S fuel) (Some (js "${config:nonexistent.key} ${file:x}"))
    additionalEnvironment
  = Some (Throw (AssertionError "unknown varType matched")) ∧
  (workspaceFolders h = Some [] →
   resolveVariables h (S fuel) (Some (js "${config:nonexistent.key} ${nosuchfolder}"))
     additionalEnvironment
   = Some (Throw TypeError)).
Proof.
  assert (∀ input, ∃ v,
            replacer h additionalEnvironment input
              {| match_ := js "${config:nonexistent.key}"; varType := Some config;
                 name := js "nonexistent.key" |} = Normal v) as Hconfig.
  { intros input. unfold replacer, newValue. cbn [varType default bindC]. eauto. }
  split.
  - apply resolveVariables_first_pass_throws.
    rewrite (replaceAll_match _ _ _ _ (js " ${file:x}")
               {| match_ := js "${config:nonexistent.key}"; varType := Some config;
                  name := js "nonexistent.key" |}) by (vm_compute; reflexivity).
    destruct (Hconfig (js "${config:nonexistent.key} ${file:x}")) as [v ->].
    cbn [bindC]. change (js " ${file:x}") with (32 :: js "${file:x}").
    rewrite replaceAll_copy by (by apply exec_not_dollar).
    by rewrite (replaceAll_one_reference _ _ _ _
                  {| match_ := js "${file:x}"; varType := Some file; name := js "x" |})
      by (vm_compute; reflexivity).
  - intros Hw. apply resolveVariables_first_pass_throws.
    rewrite (replaceAll_match _ _ _ _ (js " ${nosuchfolder}")
               {| match_ := js "${config:nonexistent.key}"; varType := Some config;
                  name := js "nonexistent.key" |}) by (vm_compute; reflexivity).
    destruct (Hconfig (js "${config:nonexistent.key} ${nosuchfolder}")) as [v ->].
    cbn [bindC]. change (js " ${nosuchfolder}") with (32 :: js "${nosuchfolder}").
    rewrite replaceAll_copy by (by apply exec_not_dollar).
    rewrite (replaceAll_one_reference _ _ _ _
               {| match_ := js "${nosuchfolder}"; varType := None;
                  name := js "nosuchfolder" |}) by (vm_compute; reflexivity).
    by rewrite replacer_empty_list.
Qed.

(** ** The kinds [file], [fileDirname] and [fileBasenameNoExtension] *)

(** C2: the [default] branch of the [switch] is reached.  The expression
    lists three kinds for which the [switch] has no case: at a reference of
    one of them the callback fails with the assertion, and so does the call
    on [${file:x}], on every host and with every overlay. *)
Theorem file_kinds_reach_assertion (h : Host) (fuel : nat)
    (additionalEnvironment : option (gmap (list N) EnvValue)) (input : list N) :
  (∀ m k, varType m = Some k → k ∈ fileKinds →
     replacer h additionalEnvironment input m
     = Throw (AssertionError "unknown varType matched")) ∧
  exec (js "${file:x}")
  = Some ({| match_ := js "${file:x}"; varType := Some file; name := js "x" |}, []) ∧
  resolveVariables h (S fuel) (Some (js "${file:x}")) additionalEnvironment
  = Some (Throw (AssertionError "unknown varType matched")).
Proof.
  assert (∀ inp m k, varType m = Some k → k ∈ fileKinds →
            replacer h additionalEnvironment inp m
            = Throw (AssertionError "unknown varType matched")) as Hcb.
  { intros inp m k Hm Hk. unfold replacer, newValue. rewrite Hm.
    unfold fileKinds in Hk.
    repeat (apply elem_of_cons in Hk as [->|Hk]; [done|]).
    by apply elem_of_nil in Hk. }
  split_and!; [by apply Hcb|by vm_compute|].
  apply resolveVariables_first_pass_throws.
  rewrite (replaceAll_one_reference _ _ _ _
             {| match_ := js "${file:x}"; varType := Some file; name := js "x" |})
    by (vm_compute; reflexivity).
  apply (Hcb _ _ file); [done|]. by left.
Qed.

Lemma exec_reference_file_word (w : list N) :
  w ∈ [js "file"; js "fileDirname"; js "fileBasenameNoExtension"] →
  exec (reference w)
  = Some ({| match_ := reference w; varType := None; name := w |}, []).
Proof.
  intros Hw.
  repeat (apply elem_of_cons in Hw as [->|Hw]; [vm_compute; reflexivity|]).
  by apply elem_of_nil in Hw.
Qed.

(** C1, as the code has it: [${file}], [${fileDirname}] and
    [${fileBasenameNoExtension}] hold no separator, so the expression does
    not read a kind in them: the word is the name of a reference without a
    kind, which is handled as [workspaceFolder].  The reference stays as it
    is when the list of folders is absent; when the list has a folder, the
    pass replaces it by the path of the first folder of that name or,
    without one, of the first folder. *)
Theorem file_word_without_separator (h : Host)
    (additionalEnvironment : option (gmap (list N) EnvValue))
    (input w : list N) :
  w ∈ [js "file"; js "fileDirname"; js "fileBasenameNoExtension"] →
  exec (reference w)
  = Some ({| match_ := reference w; varType := None; name := w |}, []) ∧
  replaceAll h additionalEnvironment input (reference w)
  = replacer h additionalEnvironment input
      {| match_ := reference w; varType := Some workspaceFolder; name := w |} ∧
  (workspaceFolders h = None →
     ∀ fuel, resolveVariables h (S fuel) (Some (reference w)) additionalEnvironment
             = Some (Normal (reference w))) ∧
  (∀ folder folders, workspaceFolders h = Some (folder :: folders) →
     replaceAll h additionalEnvironment input (reference w)
     = Normal (fsPath (default folder
         (find (λ f, bool_decide (toLocaleLowerCase h (folder_name f)
                                  = toLocaleLowerCase h w))
               (folder :: folders))))).
Proof.
  intros Hw. pose proof (exec_reference_file_word w Hw) as He.
  assert (w ≠ []) as Hne.
  { intros ->. repeat (apply elem_of_cons in Hw as [Hw|Hw]; [done|]).
    by apply elem_of_nil in Hw. }
  split_and!; [done|by rewrite (replaceAll_one_reference _ _ _ _ _ He)| |].
  - intros Hnone fuel.
    assert (replaceHome h (reference w) = reference w) as Hh by done.
    rewrite <- Hh at 2. apply resolveVariables_first_pass_same; [done|].
    rewrite (replaceAll_one_reference _ _ _ _ _ He).
    unfold replacer, newValue. simpl. rewrite Hnone. by destruct w.
  - intros folder folders Hsome.
    rewrite (replaceAll_one_reference _ _ _ _ _ He).
    unfold replacer, newValue. cbn [varType name match_ default].
    rewrite Hsome. destruct w as [|c w]; [done|].
    by destruct (find _ (folder :: folders)).
Qed.

Lemma file_word_without_separator_witness :
  replaceAll hostBar None (js "${file}") (js "${file}") = Normal (js "/b").
Proof.
  refine (proj2 (proj2 (proj2 (file_word_without_separator hostBar None
            (js "${file}") (js "file") _))) (mkFolder "bar" "/b") [] _).
  - left.
  - reflexivity.
Defined.

(** C1 as the specification has it fails: with a folder open, [${file}] is
    replaced by the folder's path. *)
Lemma file_reference_is_resolved :
  resolveVariables hostBar 2 (Some (js "${file}")) None = Some (Normal (js "/b")) ∧
  js "/b" ≠ js "${file}".
Proof. split; [vm_compute; reflexivity|vm_compute; discriminate]. Qed.

(** ** Termination of the loop *)



(** Values that bring the same references back end the loop: a variable
    that holds its own reference after one pass, two variables that hold
    each other's reference after two. *)
Example cyclic_references_end :
  resolveVariables hostCyclic 1 (Some (js "${env:S}")) None
  = Some (Normal (js "${env:S}")) ∧
  resolveVariables hostCyclic 1 (Some (js "${env:A}")) None = None ∧
  resolveVariables hostCyclic 2 (Some (js "${env:A}")) None
  = Some (Normal (js "${env:A}")).
Proof. split_and!; vm_compute; reflexivity. Qed.





(** ** Resolving a result again *)

Section again.
Variable h : Host.
Variable additionalEnvironment : option (gmap (list N) EnvValue).

(** When the overlay binds no sequence, the callback does not look at the
    original input, and neither do the pass and the loop. *)
Lemma newValue_input (input input' : list N) (m : Match) :
  onlyStrings additionalEnvironment →
  newValue h additionalEnvironment input m = newValue h additionalEnvironment input' m.
Proof.
  intros Ho. unfold newValue.
  destruct (default workspaceFolder (varType m)); try done.
  destruct additionalEnvironment as [ae|]; [|done].
  destruct (ae !! name m) as [[v|l]|] eqn:Hl; try done.
  by pose proof (Ho _ _ Hl).
Qed.

Lemma replaceAll_input (input input' s : list N) :
  onlyStrings additionalEnvironment →
  replaceAll h additionalEnvironment input s = replaceAll h additionalEnvironment input' s.
Proof.
  intros Ho. unfold replaceAll. generalize (length s) as n. intros n. revert s.
  induction n as [|n IH]; intros s; [done|]. simpl.
  destruct s as [|c s]; [done|].
  destruct (exec (c :: s)) as [[m rest]|].
  - unfold replacer. rewrite (newValue_input input input' m Ho). by rewrite IH.
  - by rewrite IH.
Qed.

Lemma visits_input (input input' s r : list N) (xs : list (list N)) :
  onlyStrings additionalEnvironment →
  visits h additionalEnvironment input s xs r →
  visits h additionalEnvironment input' s xs r.
Proof.
  intros Ho Hv. induction Hv as [s|s s' xs r Hp Hv IH]; [constructor|].
  apply visits_pass with s'; [|done]. by rewrite (replaceAll_input input' input).
Qed.

(** Text without a [$] before the string is carried along by the passes. *)
Lemma visits_add_prefix (input pre t t' : list N) (ts : list (list N)) :
  DOLLAR ∉ pre →
  visits h additionalEnvironment input t ts t' →
  visits h additionalEnvironment input (pre ++ t) ((pre ++.) <$> ts) (pre ++ t').
Proof.
  intros Hpre Hv. induction Hv as [s|s s' xs r Hp Hv IH]; [constructor|].
  rewrite fmap_cons. apply visits_pass with (pre ++ s'); [|done].
  rewrite replaceAll_plain_prefix by done. by rewrite Hp.
Qed.

Lemma visits_strip_prefix (input pre t r : list N) (xs : list (list N)) :
  DOLLAR ∉ pre →
  visits h additionalEnvironment input (pre ++ t) xs r →
  ∃ ts t', xs = (pre ++.) <$> ts ∧ r = pre ++ t' ∧
           visits h additionalEnvironment input t ts t'.
Proof.
  intros Hpre. revert t. induction xs as [|x xs IH]; intros t Hv.
  - inversion Hv; subst. exists [], t. split_and!; [done|done|constructor].
  - inversion Hv as [|s s' xs' r' Hp Hv']; subst.
    rewrite replaceAll_plain_prefix in Hp by done.
    destruct (replaceAll h additionalEnvironment input t) as [out|] eqn:Ht; [|done].
    simpl in Hp. injection Hp as <-.
    destruct (IH out Hv') as (ts & t' & -> & -> & Hts).
    exists (t :: ts), t'. split_and!; [done|done|]. by apply visits_pass with out.
Qed.

(** A string the passes lead back to, through different strings, is what
    the call on it returns when the shorthand does not change it. *)
Lemma resolveVariables_cycle (r : list N) (post : list (list N)) :
  onlyStrings additionalEnvironment →
  replaceHome h r = r →
  visits h additionalEnvironment r r (r :: post) r →
  NoDup (r :: post) →
  resolveVariables h (S (length post)) (Some r) additionalEnvironment
  = Some (Normal r).
Proof.
  intros Ho Hh Hv Hnd.
  destruct (decide (r = [])) as [->|Hne]; [done|].
  rewrite resolveVariables_nonempty by done.
  rewrite (proj2 (resolveLoop_Normal h additionalEnvironment r
                    (S (length post)) r r ∅)); [by rewrite Hh|].
  exists (r :: post). split_and!; [done|done| |right; by left|done].
  intros x _. apply not_elem_of_empty.
Qed.

(** C9, as the code has it: when the call returns, the overlay binds no
    name to a sequence of strings, and the home directory path is not
    empty, holds no [$] and does not begin with [~], the call on the result
    returns the result. *)
Theorem resolveVariables_again (fuel : nat) (input : option (list N)) (out : list N) :
  onlyStrings additionalEnvironment →
  plainHome h →
  resolveVariables h fuel input additionalEnvironment = Some (Normal out) →
  ∃ fuel', resolveVariables h fuel' (Some out) additionalEnvironment
           = Some (Normal out).
Proof.
  intros Ho (Hdollar & c0 & p0 & Hhome & Hc0) Hres.
  destruct input as [[|c s]|]; [by injection Hres as <-; exists 0%nat| |
                                by injection Hres as <-; exists 0%nat].
  unfold resolveVariables in Hres.
  destruct (resolveLoop h additionalEnvironment (c :: s) fuel (c :: s) ∅)
    as [[r|e]|] eqn:Hl; [|done|done].
  injection Hres as <-.
  apply resolveLoop_result_again in Hl as (post & Hv & Hnd).
  destruct r as [|c' t]; [by exists 0%nat|].
  destruct (decide (c' = TILDE)) as [->|Hc'].
  - rewrite replaceHome_tilde.
    destruct (visits_strip_prefix (c :: s) [TILDE] t (TILDE :: t) _
                ltac:(by intros ?%list_elem_of_singleton) Hv)
      as (ts & t' & Hts & Ht' & Hvt).
    injection Ht' as <-.
    destruct ts as [|t1 ts]; [done|]. rewrite fmap_cons in Hts.
    injection Hts as <- Hpost.
    assert (NoDup (t :: ts)) as Hndt.
    { subst post. apply (NoDup_fmap_1 (λ m, TILDE :: m)). exact Hnd. }
    exists (S (length ((homedir h ++.) <$> ts))).
    apply resolveVariables_cycle; [done| | |].
    + rewrite Hhome. simpl. by destruct (N.eqb_spec c0 TILDE).
    + apply (visits_input (c :: s)); [done|].
      by apply (visits_add_prefix (c :: s) (homedir h) t t (t :: ts)).
    + change (NoDup ((homedir h ++.) <$> t :: ts)). by apply NoDup_fmap_2; [apply _|].
  - exists (S (length post)).
    assert (replaceHome h (c' :: t) = c' :: t) as Hh.
    { apply replaceHome_other. by intros t0 [= ->]. }
    rewrite Hh. apply resolveVariables_cycle; [done|done| |done].
    by apply (visits_input (c :: s)).
Qed.

End again.

Lemma resolveVariables_again_witness :
  ∃ fuel', resolveVariables hostBar fuel' (Some (js "/b")) None
           = Some (Normal (js "/b")).
Proof.
  refine (resolveVariables_again hostBar None 2 (Some (js "${foo}")) (js "/b") _ _ _).
  - exact I.
  - split.
    + vm_compute. intros H. repeat (apply elem_of_cons in H as [H|H]; [done|]).
      by apply elem_of_nil in H.
    + exists 47, (js "home/u"). split; [reflexivity|discriminate].
  - vm_compute. reflexivity.
Defined.

(** C9 as the specification has it fails.  With the overlay
    [{Q: "${env:P}", P: ["a", "b"]}] the call on [${env:Q}] returns
    [${env:P}]: there the reference is not the whole input, the sequence is
    not joined, and the last pass changes nothing.  The call on that result
    joins the sequence. *)
Lemma sequence_joined_on_second_call :
  resolveVariables hostNoFolders 2 (Some (js "${env:Q}")) overlayIndirect
  = Some (Normal (js "${env:P}")) ∧
  replaceAll hostNoFolders overlayIndirect (js "${env:Q}") (js "${env:P}")
  = Normal (js "${env:P}") ∧
  resolveVariables hostNoFolders 2 (Some (js "${env:P}")) overlayIndirect
  = Some (Normal (js "a:b")) ∧
  js "a:b" ≠ js "${env:P}".
Proof. split_and!; vm_compute; (reflexivity || discriminate). Qed.

(** The condition on the home directory path is needed as well: with the
    path [~x], the call on [~] returns [~x], and the call on [~x] returns
    [~xx]. *)
Example home_with_tilde_again :
  resolveVariables hostTildeHome 1 (Some (js "~")) None = Some (Normal (js "~x")) ∧
  resolveVariables hostTildeHome 1 (Some (js "~x")) None = Some (Normal (js "~xx")).
Proof. split; vm_compute; reflexivity. Qed.

(** ** The grammar, both ways *)

Lemma lazyName_nameChars (s nm r : list N) :
  lazyName s = Some (nm, r) → nameChars nm.
Proof.
  revert nm. induction s as [|c s IH]; intros nm; simpl; [done|].
  destruct (N.eqb_spec c RBRACE) as [->|Hc].
  { intros [= <- <-]. constructor. }
  destruct (isLineTerminator c) eqn:Hlt; [done|].
  destruct (lazyName s) as [[nm' r']|]; [|done].
  intros [= <- <-]. constructor; [done|]. by apply IH.
Qed.

Lemma lazyName_app (nm rest : list N) :
  nameChars nm → lazyName (nm ++ RBRACE :: rest) = Some (nm, rest).
Proof.
  induction 1 as [|c nm [Hc Hlt] _ IH]; simpl.
  - done.
  - destruct (N.eqb_spec c RBRACE); [done|]. by rewrite Hlt, IH.
Qed.

(** No name is found when a line terminator comes before the first closing
    brace. *)
Lemma lazyName_line_terminator (a b : list N) (c : N) :
  RBRACE ∉ a → isLineTerminator c = true → lazyName (a ++ c :: b) = None.
Proof.
  intros Ha Hc. induction a as [|d a IH]; simpl.
  - destruct (N.eqb_spec c RBRACE) as [->|]; [done|]. by rewrite Hc.
  - destruct (N.eqb_spec d RBRACE) as [->|]; [by destruct Ha; left|].
    destruct (isLineTerminator d); [done|].
    rewrite IH; [done|]. intros Hin. apply Ha. by right.
Qed.

Lemma qualified_None (ks : list VarType) (s : list N) :
  (∀ k, k ∈ ks → (literal (varTypeName k) s ≫= separator) ≫= lazyName = None) →
  qualified ks s = None.
Proof.
  induction ks as [|k ks IH]; intros Hks; [done|].
  unfold qualified; fold qualified. rewrite (Hks k) by (by left).
  apply IH. intros k' Hk'. apply Hks. by right.
Qed.

(** The kind words hold letters only. *)
Lemma varTypeName_letters (k : VarType) (c : N) :
  c ∈ varTypeName k → (65 ≤ c ∧ c ≤ 122)%N.
Proof.
  intros Hc. destruct k; vm_compute in Hc;
    repeat (apply elem_of_cons in Hc as [->|Hc]; [by vm_compute|]);
    by apply elem_of_nil in Hc.
Qed.

(** When a kind and a separator are read at the start of [body], they are
    the start of [body]. *)
Lemma literal_separator_Some (k : VarType) (body r : list N) :
  literal (varTypeName k) body ≫= separator = Some r →
  ∃ c, body = varTypeName k ++ c :: r ∧ (c = DOT ∨ c = COLON).
Proof.
  destruct (literal (varTypeName k) body) as [r1|] eqn:Hl; simpl; [|done].
  intros (c & -> & Hc)%separator_Some. apply literal_Some in Hl. eauto.
Qed.

#[local] Instance VarType_eq_dec : EqDecision VarType.
Proof. solve_decision. Defined.

(** A kind word followed by a separator is read as no other kind. *)
Lemma other_kind_not_read (k k' : VarType) (c : N) (t : list N) :
  c = DOT ∨ c = COLON → k' ≠ k →
  literal (varTypeName k') (varTypeName k ++ c :: t) ≫= separator = None.
Proof.
  intros Hc Hk. destruct k', k; try done; destruct Hc as [->| ->]; reflexivity.
Qed.

Lemma qualified_kind (ks : list VarType) (k : VarType) (c : N) (nm rest : list N) :
  c = DOT ∨ c = COLON → nameChars nm → k ∈ ks →
  qualified ks (varTypeName k ++ c :: nm ++ RBRACE :: rest) = Some (k, (nm, rest)).
Proof.
  intros Hc Hnm. induction ks as [|k' ks IH]; intros Hk.
  { by apply elem_of_nil in Hk. }
  unfold qualified; fold qualified.
  destruct (decide (k' = k)) as [->|Hne].
  - rewrite literal_app. simpl.
    assert ((c =? DOT) || (c =? COLON) = true) as ->.
    { by destruct Hc as [->| ->]. }
    simpl. by rewrite lazyName_app.
  - rewrite other_kind_not_read by done. simpl. apply IH.
    apply elem_of_cons in Hk as [->|Hk]; done.
Qed.

Lemma varTypes_all (k : VarType) : k ∈ varTypes.
Proof. destruct k; unfold varTypes; repeat (first [by left|right]). Qed.

Lemma take_match (p x rest : list N) :
  take (length (p ++ x ++ RBRACE :: rest) - length rest) (p ++ x ++ RBRACE :: rest)
  = p ++ x ++ [RBRACE].
Proof.
  replace (p ++ x ++ RBRACE :: rest) with ((p ++ x ++ [RBRACE]) ++ rest).
  - apply take_consumed.
  - by rewrite <- !app_assoc.
Qed.

(** A reference with a kind is read as it is written. *)
Lemma exec_qualified (k : VarType) (c : N) (nm rest : list N) :
  c = DOT ∨ c = COLON → nameChars nm →
  exec (js "${" ++ varTypeName k ++ c :: nm ++ RBRACE :: rest)
  = Some ({| match_ := js "${" ++ varTypeName k ++ c :: nm ++ [RBRACE];
             varType := Some k; name := nm |}, rest).
Proof.
  intros Hc Hnm. unfold exec. rewrite literal_app. cbn [mbind option_bind].
  rewrite qualified_kind by (done || apply varTypes_all).
  pose proof (take_match (js "${") (varTypeName k ++ c :: nm) rest) as Ht.
  rewrite <- !app_assoc in Ht. cbn [app] in Ht. by rewrite Ht.
Qed.

Lemma letter_not_line_terminator (c : N) :
  (65 ≤ c ∧ c ≤ 122)%N → isLineTerminator c = false.
Proof.
  intros [Hl Hu]. unfold isLineTerminator.
  destruct (N.eqb_spec c 10), (N.eqb_spec c 13), (N.eqb_spec c 8232),
    (N.eqb_spec c 8233); simpl; try done; lia.
Qed.

Lemma kind_and_separator_chars (k : VarType) (c d : N) :
  c = DOT ∨ c = COLON → d ∈ varTypeName k ++ [c] →
  d ≠ RBRACE ∧ isLineTerminator d = false.
Proof.
  intros Hc [Hd|Hd%list_elem_of_singleton]%elem_of_app.
  - apply varTypeName_letters in Hd. split.
    + intros ->. unfold RBRACE in Hd. lia.
    + by apply letter_not_line_terminator.
  - subst d. by destruct Hc as [->| ->].
Qed.

Lemma exec_unqualified (nm rest : list N) :
  nameChars nm →
  (∀ k c t, c = DOT ∨ c = COLON → nm ≠ varTypeName k ++ c :: t) →
  exec (js "${" ++ nm ++ RBRACE :: rest)
  = Some ({| match_ := js "${" ++ nm ++ [RBRACE]; varType := None; name := nm |},
          rest).
Proof.
  intros Hnm Hkind. unfold exec. rewrite literal_app. cbn [mbind option_bind].
  rewrite qualified_None.
  - rewrite lazyName_app by done. cbn [mbind option_bind].
    by rewrite (take_match (js "${") nm rest).
  - intros k _.
    destruct (literal (varTypeName k) (nm ++ RBRACE :: rest) ≫= separator)
      as [r|] eqn:Hr; [|done].
    apply literal_separator_Some in Hr as (c & Hbody & Hc).
    change (varTypeName k ++ c :: r) with (varTypeName k ++ [c] ++ r) in Hbody.
    rewrite app_assoc in Hbody.
    apply app_eq_inv in Hbody as [(x & Hx & _)|(x & Hx & Hr)].
    + destruct (Hkind k c x Hc). by rewrite Hx, <- app_assoc.
    + destruct x as [|d x].
      * rewrite app_nil_r in Hx. destruct (Hkind k c [] Hc).
        by rewrite <- Hx.
      * injection Hr as <- _.
        destruct (kind_and_separator_chars k c RBRACE Hc) as [Hne _]; [|done].
        rewrite Hx. apply elem_of_app. right. by left.
Qed.

Lemma exec_line_terminator (a b : list N) (c : N) :
  RBRACE ∉ a → isLineTerminator c = true →
  exec (js "${" ++ a ++ c :: b) = None.
Proof.
  intros Ha Hc. unfold exec. rewrite literal_app. cbn [mbind option_bind].
  rewrite qualified_None.
  - by rewrite lazyName_line_terminator.
  - intros k _.
    destruct (literal (varTypeName k) (a ++ c :: b) ≫= separator)
      as [r|] eqn:Hr; [|done].
    apply literal_separator_Some in Hr as (c' & Hbody & Hc').
    change (varTypeName k ++ c' :: r) with (varTypeName k ++ [c'] ++ r) in Hbody.
    rewrite app_assoc in Hbody. cbn [mbind option_bind].
    apply app_eq_inv in Hbody as [(x & Hx & Hr)|(x & Hx & Hr)].
    + subst r. apply lazyName_line_terminator; [|done].
      intros Hin. apply Ha. rewrite Hx. apply elem_of_app. by right.
    + destruct x as [|d x].
      * rewrite app_nil_l in Hr. subst r.
        by apply (lazyName_line_terminator [] b c); [apply not_elem_of_nil|].
      * injection Hr as <- _.
        destruct (kind_and_separator_chars k c' c Hc') as [_ Hlt]; [|congruence].
        rewrite Hx. apply elem_of_app. right. by left.
Qed.

Arguments js : simpl never.

Lemma nameChars_app (a b : list N) : nameChars (a ++ b) ↔ nameChars a ∧ nameChars b.
Proof. apply Forall_app. Qed.

Lemma qualified_nameChars (ks : list VarType) (s nm r : list N) (k : VarType) :
  qualified ks s = Some (k, (nm, r)) → nameChars nm.
Proof.
  induction ks as [|k' ks IH]; [done|]. unfold qualified; fold qualified.
  destruct ((literal (varTypeName k') s ≫= separator) ≫= lazyName)
    as [[nm' r']|] eqn:Hl; [|done].
  intros [= <- <- <-].
  destruct (literal (varTypeName k') s ≫= separator) as [s2|]; [|done].
  by apply lazyName_nameChars in Hl.
Qed.

(** What [exec] reads is a reference as it is written. *)
Lemma exec_written (s rest : list N) (m : Match) :
  exec s = Some (m, rest) → s = match_ m ++ rest ∧ written m.
Proof.
  intros He. pose proof (exec_Some _ _ _ He) as (Hs & pre & Hm & Hpre).
  split; [done|]. revert He. unfold exec.
  destruct (literal (js "${") s) as [body|] eqn:Hl; [|done].
  cbn [mbind option_bind].
  destruct (qualified varTypes body) as [[k [nm r]]|] eqn:Hq.
  - intros [= <- <-]. simpl in *. destruct Hpre as (c & -> & Hc).
    split; [by apply qualified_nameChars in Hq|].
    exists c. split; [done|]. rewrite Hm. by rewrite <- app_assoc.
  - destruct (lazyName body) as [[nm r]|] eqn:Hn; [|done].
    cbn [mbind option_bind]. intros [= <- <-]. simpl in *. subst pre.
    pose proof (lazyName_nameChars _ _ _ Hn) as Hnm.
    split; [done|]. split; [done|].
    intros k c t Hc Hname. cbn [name] in Hname. subst nm.
    apply nameChars_app in Hnm as [_ Hnm]. apply Forall_cons in Hnm as [_ Hnm].
    apply lazyName_Some in Hn. subst body.
    rewrite <- app_assoc in Hq. cbn [app] in Hq.
    rewrite qualified_kind in Hq by (done || apply varTypes_all). done.
Qed.

(** A reference as it is written is what [exec] reads. *)
Lemma written_exec (m : Match) (rest : list N) :
  written m → exec (match_ m ++ rest) = Some (m, rest).
Proof.
  intros [Hnm Hm]. destruct m as [text [k|] nm]; cbn [match_ varType name] in *.
  - destruct Hm as (c & Hc & ->).
    rewrite <- !app_assoc. cbn [app]. rewrite <- !app_assoc. cbn [app].
    by rewrite exec_qualified.
  - destruct Hm as [-> Hkind].
    rewrite <- !app_assoc. cbn [app].
    by rewrite exec_unqualified.
Qed.

(** X1: [exec] reads a match at the start of a string exactly when the
    string begins with a reference as it is written, and then it reports
    the kind, the name and the text of that reference. *)
Theorem exec_iff_written (s rest : list N) (m : Match) :
  exec s = Some (m, rest) ↔ s = match_ m ++ rest ∧ written m.
Proof.
  split; [apply exec_written|]. intros [-> Hw]. by apply written_exec.
Qed.

(** ** Lines *)

Lemma written_no_line_terminator (m : Match) (d : N) :
  written m → d ∈ match_ m → isLineTerminator d = false.
Proof.
  intros [Hnm Hm] Hd.
  assert (∀ x, x ∈ name m ++ [RBRACE] → isLineTerminator x = false) as Htail.
  { intros x [Hx|Hx%list_elem_of_singleton]%elem_of_app; [|by subst x].
    unfold nameChars in Hnm. rewrite Forall_forall in Hnm. by apply Hnm. }
  destruct (varType m) as [k|].
  - destruct Hm as (c & Hc & Hm). rewrite Hm in Hd.
    change (js "${") with [DOLLAR; LBRACE] in Hd.
    apply elem_of_cons in Hd as [->|Hd]; [done|].
    apply elem_of_cons in Hd as [->|Hd]; [done|].
    change (varTypeName k ++ c :: name m ++ [RBRACE])
      with (varTypeName k ++ [c] ++ name m ++ [RBRACE]) in Hd.
    rewrite app_assoc in Hd. apply elem_of_app in Hd as [Hd|Hd]; [|by apply Htail].
    by apply (kind_and_separator_chars k c d Hc).
  - destruct Hm as [Hm _]. rewrite Hm in Hd.
    change (js "${") with [DOLLAR; LBRACE] in Hd.
    apply elem_of_cons in Hd as [->|Hd]; [done|].
    apply elem_of_cons in Hd as [->|Hd]; [done|]. by apply Htail.
Qed.

(** What is read at the start of a line does not depend on the lines after
    it. *)
Lemma exec_app_line (s l2 : list N) (c : N) :
  isLineTerminator c = true →
  exec (s ++ c :: l2)
  = match exec s with
    | Some (m, rest) => Some (m, rest ++ c :: l2)
    | None => None
    end.
Proof.
  intros Hc. destruct (exec s) as [[m rest]|] eqn:He.
  - apply exec_written in He as [-> Hw]. rewrite <- app_assoc.
    by apply written_exec.
  - destruct (exec (s ++ c :: l2)) as [[m rest']|] eqn:He'; [|done].
    apply exec_written in He' as [Hs Hw].
    apply app_eq_inv in Hs as [(x & Hx & _)|(x & Hx & Hr)].
    + rewrite Hx, written_exec in He by done. done.
    + destruct x as [|d x].
      * rewrite app_nil_r in Hx. rewrite <- (app_nil_r s), <- Hx in He.
        by rewrite written_exec in He.
      * injection Hr as <- _.
        rewrite (written_no_line_terminator m c Hw) in Hc; [done|].
        rewrite Hx. apply elem_of_app. right. by left.
Qed.

Lemma replaceAll_line_by_line (h : Host)
    (additionalEnvironment : option (gmap (list N) EnvValue))
    (input l1 l2 : list N) (c : N) :
  isLineTerminator c = true →
  replaceAll h additionalEnvironment input (l1 ++ c :: l2)
  = (v1 ←! replaceAll h additionalEnvironment input l1;
     v2 ←! replaceAll h additionalEnvironment input l2;
     Normal (v1 ++ c :: v2)).
Proof.
  intros Hc. remember (length l1) as n eqn:Hn. revert l1 Hn.
  induction n as [n IH] using lt_wf_ind. intros l1 ->.
  destruct l1 as [|d l1].
  - rewrite replaceAll_nil. cbn [app bindC].
    rewrite replaceAll_copy.
    + by destruct (replaceAll h additionalEnvironment input l2).
    + apply exec_not_dollar. by intros ->.
  - pose proof (exec_app_line (d :: l1) l2 c Hc) as He.
    destruct (exec (d :: l1)) as [[m rest]|] eqn:He1.
    + rewrite (replaceAll_match _ _ _ _ _ _ He), (replaceAll_match _ _ _ _ _ _ He1).
      rewrite (IH (length rest)); [|by apply exec_shorter in He1|done].
      destruct (replacer h additionalEnvironment input m); [|done].
      destruct (replaceAll h additionalEnvironment input rest); [|done].
      destruct (replaceAll h additionalEnvironment input l2); [|done].
      simpl. by rewrite <- app_assoc.
    + cbn [app] in He |- *.
      rewrite (replaceAll_copy _ _ _ _ _ He), (replaceAll_copy _ _ _ _ _ He1).
      rewrite (IH (length l1)); [|simpl; lia|done].
      destruct (replaceAll h additionalEnvironment input l1); [|done].
      by destruct (replaceAll h additionalEnvironment input l2).
Qed.

(** X2: a pass works line by line.  No reference spans a line terminator
    (LF, CR, U+2028, U+2029): a [${] whose line holds no closing brace
    after it is not read, and the pass over two lines is the pass over each
    of them, the first line first. *)
Theorem pass_line_by_line (h : Host)
    (additionalEnvironment : option (gmap (list N) EnvValue))
    (input : list N) (c : N) :
  isLineTerminator c = true →
  (∀ a b, RBRACE ∉ a → exec (js "${" ++ a ++ c :: b) = None) ∧
  (∀ l1 l2,
     replaceAll h additionalEnvironment input (l1 ++ c :: l2)
     = (v1 ←! replaceAll h additionalEnvironment input l1;
        v2 ←! replaceAll h additionalEnvironment input l2;
        Normal (v1 ++ c :: v2))).
Proof.
  intros Hc. split.
  - intros a b Ha. by apply exec_line_terminator.
  - intros l1 l2. by apply replaceAll_line_by_line.
Qed.

Lemma pass_line_by_line_witness :
  replaceAll hostFooBar None [] (js "${foo" ++ [10] ++ js "}${bar}")
  = Normal (js "${foo" ++ [10] ++ js "}/b").
Proof.
  refine (eq_trans (proj2 (pass_line_by_line hostFooBar None [] 10 _)
                      (js "${foo") (js "}${bar}")) _).
  - reflexivity.
  - vm_compute. reflexivity.
Defined.

(** ** Text that is no reference *)

(** A reference holds a [$], an opening and a closing brace. *)
Lemma exec_needs (s : list N) (d : N) :
  d ∈ [DOLLAR; LBRACE; RBRACE] → d ∉ s → exec s = None.
Proof.
  intros Hd Hs. destruct (exec s) as [[m rest]|] eqn:He; [|done].
  apply exec_Some in He as (-> & pre & Hm & _). destruct Hs.
  apply elem_of_app. left. rewrite Hm.
  apply elem_of_cons in Hd as [->|Hd]; [by left|].
  apply elem_of_cons in Hd as [->|Hd]; [right; by left|].
  apply list_elem_of_singleton in Hd as ->.
  do 2 right. rewrite app_assoc. apply elem_of_app. right. by left.
Qed.

Lemma replaceFrom_no_reference (h : Host)
    (additionalEnvironment : option (gmap (list N) EnvValue))
    (input : list N) (d : N) (n : nat) (s : list N) :
  d ∈ [DOLLAR; LBRACE; RBRACE] → d ∉ s →
  replaceFrom h additionalEnvironment input n s = Normal s.
Proof.
  intros Hd. revert s. induction n as [|n IH]; intros s Hs; [done|].
  destruct s as [|c s]; [done|]. cbn [replaceFrom].
  rewrite (exec_needs _ d Hd Hs). rewrite IH; [done|].
  intros Hin. apply Hs. by right.
Qed.

(** X3: text in which a [$], an opening brace or a closing brace does not
    occur at all holds no reference: on every host and with every overlay
    the call returns it as it is, but for the home directory shorthand,
    and throws nothing. *)
Theorem malformed_text_passes (h : Host) (fuel : nat) (s : list N) (d : N)
    (additionalEnvironment : option (gmap (list N) EnvValue)) :
  d ∈ [DOLLAR; LBRACE; RBRACE] → d ∉ s → s ≠ [] →
  resolveVariables h (S fuel) (Some s) additionalEnvironment
  = Some (Normal (replaceHome h s)).
Proof.
  intros Hd Hs Hne. apply resolveVariables_first_pass_same; [done|].
  by apply (replaceFrom_no_reference _ _ _ d).
Qed.

Lemma malformed_text_passes_witness :
  resolveVariables hostEmptyFolders 1 (Some (js "~/${env:HOME")) None
  = Some (Normal (js "/home/u/${env:HOME")).
Proof.
  refine (malformed_text_passes hostEmptyFolders 0 (js "~/${env:HOME") RBRACE None
            _ _ _).
  - right. right. left.
  - vm_compute. intros H. repeat (apply elem_of_cons in H as [H|H]; [done|]).
    by apply elem_of_nil in H.
  - vm_compute. discriminate.
Defined.

(** ** Values *)

Lemma resolveVariables_plain_after_pass (h : Host) (fuel : nat) (s s' : list N)
    (additionalEnvironment : option (gmap (list N) EnvValue)) :
  s ≠ [] →
  replaceAll h additionalEnvironment s s = Normal s' →
  DOLLAR ∉ s' →
  resolveVariables h (S (S fuel)) (Some s) additionalEnvironment
  = Some (Normal (replaceHome h s')).
Proof.
  intros Hs Hp Hd. rewrite resolveVariables_nonempty by done.
  rewrite resolveLoop_fresh by apply not_elem_of_empty. rewrite Hp.
  destruct (decide (s' ∈ ({[s]} ∪ ∅ : gset (list N)))) as [Hin|Hin].
  - by rewrite resolveLoop_seen.
  - rewrite resolveLoop_fresh by done. rewrite replaceAll_plain by done.
    rewrite resolveLoop_seen; [done|].
    apply elem_of_union. left. by apply elem_of_singleton.
Qed.

(** X4: when the first pass yields a string without [$], that string is the
    result: the second pass changes nothing and ends the loop, and the home
    directory shorthand is applied to it, so also to a [~] that a value
    brought to the front. *)
Theorem plain_result_is_final (h : Host) (fuel : nat) (s s' : list N)
    (additionalEnvironment : option (gmap (list N) EnvValue)) :
  s ≠ [] →
  replaceAll h additionalEnvironment s s = Normal s' →
  DOLLAR ∉ s' →
  resolveVariables h (S (S fuel)) (Some s) additionalEnvironment
  = Some (Normal (replaceHome h s')).
Proof. apply resolveVariables_plain_after_pass. Qed.

Lemma plain_result_is_final_witness :
  resolveVariables (exampleHost None [variable "X" "~/bin"]) 2
    (Some (js "${env:X}:${env:X}")) None
  = Some (Normal (js "/home/u/bin:~/bin")).
Proof.
  refine (plain_result_is_final (exampleHost None [variable "X" "~/bin"]) 0
            (js "${env:X}:${env:X}") (js "~/bin:~/bin") None _ _ _).
  - vm_compute. discriminate.
  - vm_compute. reflexivity.
  - vm_compute. intros H. repeat (apply elem_of_cons in H as [H|H]; [done|]).
    by apply elem_of_nil in H.
Defined.

(** A call on one reference with a kind. *)
Lemma one_reference_call (h : Host) (fuel : nat) (k : VarType) (c : N)
    (nm : list N) (additionalEnvironment : option (gmap (list N) EnvValue))
    (v : option (list N)) :
  c = DOT ∨ c = COLON → nameChars nm →
  (∀ input m, varType m = Some k → name m = nm →
     newValue h additionalEnvironment input m = Normal v) →
  match v with
  | Some v =>
      DOLLAR ∉ v →
      resolveVariables h (S (S fuel))
        (Some (js "${" ++ varTypeName k ++ c :: nm ++ [RBRACE])) additionalEnvironment
      = Some (Normal (replaceHome h v))
  | None =>
      resolveVariables h (S fuel)
        (Some (js "${" ++ varTypeName k ++ c :: nm ++ [RBRACE])) additionalEnvironment
      = Some (Normal (js "${" ++ varTypeName k ++ c :: nm ++ [RBRACE]))
  end.
Proof.
  intros Hc Hnm Hv.
  set (ref := js "${" ++ varTypeName k ++ c :: nm ++ [RBRACE]).
  pose proof (exec_qualified k c nm [] Hc Hnm) as He. fold ref in He.
  assert (replaceAll h additionalEnvironment ref ref
          = Normal (default ref v)) as Hp.
  { rewrite (replaceAll_one_reference _ _ _ _ _ He). unfold replacer.
    by rewrite (Hv ref {| match_ := ref; varType := Some k; name := nm |}
                  eq_refl eq_refl). }
  destruct v as [v|].
  - intros Hd. by apply resolveVariables_plain_after_pass.
  - assert (replaceHome h ref = ref) as Hh by done.
    rewrite <- Hh at 2. by apply resolveVariables_first_pass_same.
Qed.

(** X5: the call on a single [env] reference whose name the overlay does
    not bind (or without an overlay): the value of the variable in
    [process.env], after the home directory shorthand, when it holds no
    [$]; the reference itself when the variable is not set. *)
Theorem env_reference_call (h : Host) (fuel : nat) (c : N) (nm : list N)
    (additionalEnvironment : option (gmap (list N) EnvValue)) :
  c = DOT ∨ c = COLON → nameChars nm →
  (∀ ae, additionalEnvironment = Some ae → ae !! nm = None) →
  (∀ v, process_env h nm = Some v → DOLLAR ∉ v →
     resolveVariables h (S (S fuel)) (Some (js "${env" ++ c :: nm ++ [RBRACE]))
       additionalEnvironment
     = Some (Normal (replaceHome h v))) ∧
  (process_env h nm = None →
     resolveVariables h (S fuel) (Some (js "${env" ++ c :: nm ++ [RBRACE]))
       additionalEnvironment
     = Some (Normal (js "${env" ++ c :: nm ++ [RBRACE]))).
Proof.
  intros Hc Hnm Hov.
  assert (∀ input m, varType m = Some env → name m = nm →
            newValue h additionalEnvironment input m = Normal (process_env h nm))
    as Hv.
  { intros input m Hk Hn. unfold newValue. rewrite Hk, Hn. cbn [default].
    destruct additionalEnvironment as [ae|]; [|done]. by rewrite (Hov ae). }
  split.
  - intros v Hp Hd.
    pose proof (one_reference_call h fuel env c nm additionalEnvironment
                  (process_env h nm) Hc Hnm Hv) as Hcall.
    rewrite Hp in Hcall. by apply Hcall.
  - intros Hp.
    pose proof (one_reference_call h fuel env c nm additionalEnvironment
                  (process_env h nm) Hc Hnm Hv) as Hcall.
    by rewrite Hp in Hcall.
Qed.

Lemma env_reference_call_witness :
  resolveVariables (exampleHost None [variable "HOME" "/home/me"]) 2
    (Some (js "${env:HOME}")) overlayX
  = Some (Normal (js "/home/me")).
Proof.
  refine (proj1 (env_reference_call (exampleHost None [variable "HOME" "/home/me"])
                   0 COLON (js "HOME") overlayX _ _ _) (js "/home/me") _ _).
  - by right.
  - vm_compute. repeat constructor; discriminate.
  - intros ae [= <-]. vm_compute. reflexivity.
  - reflexivity.
  - vm_compute. intros H. repeat (apply elem_of_cons in H as [H|H]; [done|]).
    by apply elem_of_nil in H.
Defined.

(** X6: the call on a single [config] reference reads the configuration
    only: the value under the name, after the home directory shorthand,
    when it holds no [$]; the reference itself when the configuration has
    no value under the name.  The overlay, the environment and the folders
    play no part, and nothing is thrown. *)
Theorem config_reference_call (h : Host) (fuel : nat) (c : N) (nm : list N)
    (additionalEnvironment : option (gmap (list N) EnvValue))
    (get : list N → option (list N)) :
  c = DOT ∨ c = COLON → nameChars nm →
  getConfiguration h = Some get →
  (∀ v, get nm = Some v → DOLLAR ∉ v →
     resolveVariables h (S (S fuel)) (Some (js "${config" ++ c :: nm ++ [RBRACE]))
       additionalEnvironment
     = Some (Normal (replaceHome h v))) ∧
  (get nm = None →
     resolveVariables h (S fuel) (Some (js "${config" ++ c :: nm ++ [RBRACE]))
       additionalEnvironment
     = Some (Normal (js "${config" ++ c :: nm ++ [RBRACE]))).
Proof.
  intros Hc Hnm Hget.
  assert (∀ input m, varType m = Some config → name m = nm →
            newValue h additionalEnvironment input m = Normal (get nm)) as Hv.
  { intros input m Hk Hn. unfold newValue. by rewrite Hk, Hn, Hget. }
  pose proof (one_reference_call h fuel config c nm additionalEnvironment
                (get nm) Hc Hnm Hv) as Hcall.
  split.
  - intros v Hp Hd. rewrite Hp in Hcall. by apply Hcall.
  - intros Hp. by rewrite Hp in Hcall.
Qed.

Lemma config_reference_call_witness :
  resolveVariables hostEmptyFolders 1 (Some (js "${config.fortran.linter}")) overlayX
  = Some (Normal (js "${config.fortran.linter}")).
Proof.
  refine (proj2 (config_reference_call hostEmptyFolders 0 DOT (js "fortran.linter")
                   overlayX (λ _, None) _ _ _) _).
  - by left.
  - vm_compute. repeat constructor; discriminate.
  - reflexivity.
  - reflexivity.
Defined.

(** ** Exceptions *)

(** X7: a folder reference with an empty name, [${}] or
    [${workspaceFolder:}], is never resolved: the call returns it as it is
    on every host, also when the list of folders is present and empty,
    where a name that is not empty makes the call throw. *)
Theorem empty_name_is_kept (h : Host) (fuel : nat) (c : N)
    (additionalEnvironment : option (gmap (list N) EnvValue)) :
  c = DOT ∨ c = COLON →
  resolveVariables h (S fuel) (Some (js "${}")) additionalEnvironment
  = Some (Normal (js "${}")) ∧
  resolveVariables h (S fuel) (Some (js "${workspaceFolder" ++ c :: js "}"))
    additionalEnvironment
  = Some (Normal (js "${workspaceFolder" ++ c :: js "}")).
Proof.
  intros Hc. split.
  - change (Some (Normal (js "${}"))) with (Some (Normal (replaceHome h (js "${}")))).
    apply resolveVariables_first_pass_same; [done|].
    by rewrite (replaceAll_one_reference _ _ _ _
                  {| match_ := js "${}"; varType := None; name := [] |}).
  - apply (one_reference_call h fuel workspaceFolder c [] additionalEnvironment None);
      [done|constructor|].
    intros input m Hk Hn. unfold newValue. by rewrite Hk, Hn.
Qed.

Lemma empty_name_is_kept_witness :
  resolveVariables hostEmptyFolders 1 (Some (js "${workspaceFolder:}")) None
  = Some (Normal (js "${workspaceFolder:}")).
Proof.
  refine (proj2 (empty_name_is_kept hostEmptyFolders 0 COLON None _)).
  by right.
Defined.

(** X8: the callback throws in two cases only.  At a reference of kind
    [file], [fileDirname] or [fileBasenameNoExtension] it fails with the
    assertion; at a folder reference (kind [workspaceFolder] or none) with
    a name, when the list of folders is present and empty, it throws a
    [TypeError].  At every other reference it returns a string. *)
Theorem replacer_throws_iff (h : Host)
    (additionalEnvironment : option (gmap (list N) EnvValue))
    (input : list N) (m : Match) (e : Error) :
  replacer h additionalEnvironment input m = Throw e ↔
  (e = AssertionError "unknown varType matched" ∧
   ∃ k, varType m = Some k ∧ k ∈ fileKinds) ∨
  (e = TypeError ∧
   (varType m = None ∨ varType m = Some workspaceFolder) ∧
   name m ≠ [] ∧ workspaceFolders h = Some []).
Proof.
  unfold replacer, newValue, fileKinds. split.
  - destruct (varType m) as [[]|] eqn:Hk; cbn [default bindC];
      try discriminate;
      try (intros [= <-]; left; split; [done|]; eexists; split; [done|];
           repeat (first [by left|right])).
    + destruct (name m) as [|d nm]; [done|].
      destruct (workspaceFolders h) as [[|f fs]|]; [|by destruct (find _ _)|done].
      intros [= <-]. right. split_and!; [done|by right|done|done].
    + destruct (name m) as [|d nm]; [done|].
      destruct (workspaceFolders h) as [[|f fs]|]; [|by destruct (find _ _)|done].
      intros [= <-]. right. split_and!; [done|by left|done|done].
  - intros [(-> & k & -> & Hk)|(-> & Hk & Hn & ->)].
    + repeat (apply elem_of_cons in Hk as [->|Hk]; [done|]).
      by apply elem_of_nil in Hk.
    + assert (default workspaceFolder (varType m) = workspaceFolder) as ->.
      { by destruct Hk as [->| ->]. }
      by destruct (name m).
Qed.

Lemma replaceFrom_Normal_iff (h : Host)
    (additionalEnvironment : option (gmap (list N) EnvValue))
    (input : list N) (n : nat) (s : list N) :
  (∃ out, replaceFrom h additionalEnvironment input n s = Normal out) ↔
  (∀ m, m ∈ matchesFrom n s →
        ∃ v, replacer h additionalEnvironment input m = Normal v).
Proof.
  revert s. induction n as [|n IH]; intros s.
  { split; [by intros _ m ?%elem_of_nil|eauto]. }
  destruct s as [|c s].
  { split; [by intros _ m ?%elem_of_nil|cbn; eauto]. }
  cbn [replaceFrom matchesFrom].
  destruct (exec (c :: s)) as [[m rest]|].
  - split.
    + intros [out Hout] m' [->|Hm']%elem_of_cons.
      * destruct (replacer h additionalEnvironment input m); [eauto|done].
      * apply (proj1 (IH rest)); [|done].
        destruct (replacer h additionalEnvironment input m); [|done].
        cbn [bindC] in Hout.
        destruct (replaceFrom h additionalEnvironment input n rest); [eauto|done].
    + intros Hall. destruct (Hall m) as [v ->]; [by left|].
      destruct (proj2 (IH rest)) as [out ->]; [|cbn; eauto].
      intros m' Hm'. apply Hall. by right.
  - split.
    + intros [out Hout]. apply (proj1 (IH s)).
      destruct (replaceFrom h additionalEnvironment input n s); [eauto|done].
    + intros Hall. destruct (proj2 (IH s) Hall) as [out ->]. cbn. eauto.
Qed.

(** X9: a pass returns a string exactly when the callback does at each of
    its matches.  So on a host whose list of folders is absent or not
    empty, a pass over a string in which no reference has the kind [file],
    [fileDirname] or [fileBasenameNoExtension] throws nothing. *)
Theorem pass_returns_iff (h : Host)
    (additionalEnvironment : option (gmap (list N) EnvValue))
    (input s : list N) :
  ((∃ out, replaceAll h additionalEnvironment input s = Normal out) ↔
   (∀ m, m ∈ matches s → ∃ v, replacer h additionalEnvironment input m = Normal v)) ∧
  (workspaceFolders h ≠ Some [] →
   (∀ m k, m ∈ matches s → varType m = Some k → k ∉ fileKinds) →
   ∃ out, replaceAll h additionalEnvironment input s = Normal out).
Proof.
  split; [apply replaceFrom_Normal_iff|].
  intros Hw Hk. apply replaceFrom_Normal_iff. intros m Hm.
  unfold replacer, newValue.
  destruct (varType m) as [[]|] eqn:Hv; cbn [default bindC]; eauto;
    try (by destruct (Hk m _ Hm Hv); unfold fileKinds;
            repeat (first [by left|right])).
  - destruct (name m) as [|d nm]; [eauto|].
    destruct (workspaceFolders h) as [[|f fs]|]; [done| |eauto].
    destruct (find _ (f :: fs)); eauto.
  - destruct (name m) as [|d nm]; [eauto|].
    destruct (workspaceFolders h) as [[|f fs]|]; [done| |eauto].
    destruct (find _ (f :: fs)); eauto.
Qed.

Lemma pass_returns_iff_witness :
  ∃ out, replaceAll hostBar overlayPathlist (js "${a} ${env:PATHLIST}")
           (js "${a} ${env:PATHLIST}") = Normal out.
Proof.
  refine (proj2 (pass_returns_iff hostBar overlayPathlist (js "${a} ${env:PATHLIST}")
                   (js "${a} ${env:PATHLIST}")) _ _).
  - discriminate.
  - intros m k Hm Hv Hk. vm_compute in Hm.
    repeat (apply elem_of_cons in Hm as [->|Hm];
            [try discriminate Hv; injection Hv as <-;
             repeat (apply elem_of_cons in Hk as [Hk|Hk]; [discriminate Hk|]);
             by apply elem_of_nil in Hk|]).
    by apply elem_of_nil in Hm.
Defined.

(** ** [installPythonTool]: the arguments of [pip] *)

Lemma split_not_nil (sep : N) (s : list N) : split sep s ≠ [].
Proof.
  induction s as [|c s IH]; simpl; [done|].
  destruct (c =? sep); [done|]. by destruct (split sep s).
Qed.

Lemma split_plain (sep : N) (w : list N) : sep ∉ w → split sep w = [w].
Proof.
  induction w as [|c w IH]; intros Hw; simpl; [done|].
  destruct (N.eqb_spec c sep) as [->|]; [by destruct Hw; left|].
  rewrite IH; [done|]. intros Hin. apply Hw. by right.
Qed.

Lemma split_app_sep (sep : N) (w s : list N) :
  sep ∉ w → split sep (w ++ sep :: s) = w :: split sep s.
Proof.
  induction w as [|c w IH]; intros Hw; simpl.
  - by rewrite N.eqb_refl.
  - destruct (N.eqb_spec c sep) as [->|]; [by destruct Hw; left|].
    rewrite IH; [done|]. intros Hin. apply Hw. by right.
Qed.

Lemma split_pieces (sep : N) (s w : list N) : w ∈ split sep s → sep ∉ w.
Proof.
  revert w. induction s as [|c s IH]; intros w; simpl.
  - intros ->%list_elem_of_singleton. apply not_elem_of_nil.
  - destruct (N.eqb_spec c sep) as [->|Hc].
    + intros [->|Hw]%elem_of_cons; [apply not_elem_of_nil|by apply IH].
    + destruct (split sep s) as [|w1 ws] eqn:Hs.
      * by destruct (split_not_nil sep s).
      * intros [->|Hw]%elem_of_cons.
        -- intros [->|Hin]%elem_of_cons; [done|]. by apply (IH w1); [left|].
        -- apply IH. by right.
Qed.

Lemma join_cons (sep x : list N) (l : list (list N)) :
  l ≠ [] → join sep (x :: l) = x ++ sep ++ join sep l.
Proof. by destruct l. Qed.

Lemma join_head (sep w : list N) (c : N) (ws : list (list N)) :
  join sep ((c :: w) :: ws) = c :: join sep (w :: ws).
Proof. by destruct ws. Qed.

Lemma join_split (sep : N) (s : list N) : join [sep] (split sep s) = s.
Proof.
  induction s as [|c s IH]; [done|]. cbn [split].
  destruct (N.eqb_spec c sep) as [->|Hc].
  - rewrite join_cons by apply split_not_nil. by rewrite IH.
  - destruct (split sep s) as [|w ws] eqn:Hs; [by destruct (split_not_nil sep s)|].
    by rewrite join_head, IH.
Qed.

Ltac no_space :=
  first [ assumption
        | vm_compute; intros Hin;
          repeat (apply elem_of_cons in Hin as [Hin|Hin]; [done|]);
          by apply elem_of_nil in Hin ].

Lemma pipArguments_split (pyPackage : list N) :
  pipArguments pyPackage
  = [js "install"; js "--user"; js "--upgrade"] ++ split SPACE pyPackage.
Proof.
  unfold pipArguments.
  change (js "install --user --upgrade " ++ pyPackage)
    with (js "install" ++ SPACE :: js "--user" ++ SPACE :: js "--upgrade"
          ++ SPACE :: pyPackage).
  by rewrite !split_app_sep by no_space.
Qed.

(** X10: [pip] is spawned with [install], [--user], [--upgrade] and then
    the pieces of the package name between its spaces: one argument, the
    name itself, when the name holds no space (an empty argument for the
    empty name), several when it does, so that words after a space in the
    name reach [pip] as arguments of their own. *)
Theorem pip_arguments (pyPackage : list N) :
  pipArguments pyPackage
  = [js "install"; js "--user"; js "--upgrade"] ++ split SPACE pyPackage ∧
  (SPACE ∉ pyPackage →
   pipArguments pyPackage = [js "install"; js "--user"; js "--upgrade"; pyPackage]) ∧
  (∀ w rest, pyPackage = w ++ SPACE :: rest → SPACE ∉ w →
   pipArguments pyPackage
   = [js "install"; js "--user"; js "--upgrade"; w] ++ split SPACE rest).
Proof.
  rewrite pipArguments_split. split_and!; [done| |].
  - intros Hp. by rewrite split_plain.
  - intros w rest -> Hw. by rewrite split_app_sep.
Qed.

(** X11: no argument [pip] is spawned with holds a space, and the
    arguments joined by spaces are the command line
    [install --user --upgrade ] followed by the package name: the split
    loses no character of the name. *)
Theorem pip_arguments_join (pyPackage : list N) :
  (∀ a, a ∈ pipArguments pyPackage → SPACE ∉ a) ∧
  join [SPACE] (pipArguments pyPackage) = js "install --user --upgrade " ++ pyPackage ∧
  (4 ≤ length (pipArguments pyPackage))%nat.
Proof.
  split_and!.
  - intros a. apply split_pieces.
  - apply join_split.
  - rewrite pipArguments_split, length_app.
    pose proof (split_not_nil SPACE pyPackage).
    destruct (split SPACE pyPackage); [done|]. simpl. lia.
Qed.

Example pip_arguments_examples :
  pipArguments (js "fortran-language-server")
  = [js "install"; js "--user"; js "--upgrade"; js "fortran-language-server"] ∧
  pipArguments [] = [js "install"; js "--user"; js "--upgrade"; []] ∧
  pipArguments (js "fprettify --index-url http://x")
  = [js "install"; js "--user"; js "--upgrade"; js "fprettify"; js "--index-url";
     js "http://x"].
Proof. split_and!; vm_compute; reflexivity. Qed.

(** ** [installPythonTool]: the handlers *)

(** The entries the [exit] handler writes: an error for a code other than
    0 and for a process that a signal ended, an information for the code
    0. *)
Example exit_messages :
  onExit (js "fprettify") true (Some 1%Z) None
  = ([LogError (js "Python package fprettify failed to install with code: 1, signal: null")],
     None) ∧
  onExit (js "fprettify") true None (Some (js "SIGTERM"))
  = ([LogError (js "Python package fprettify failed to install with code: null, signal: SIGTERM")],
     None) ∧
  onExit (js "fprettify") true (Some 0%Z) None
  = ([LogInfo (js "Successfully installed fprettify.")], None).
Proof. split_and!; vm_compute; reflexivity. Qed.

(** ** [promptForMissingTool] *)

Lemma sequence_emit (e : Event) (l : list Effect) :
  sequence (emit e :: l) = (e :: (sequence l).1, (sequence l).2).
Proof. simpl. by destruct (sequence l). Qed.

Lemma promptForMissingTool_events (tool msg toolType : list N) (opts : list (list N))
    (logger action : bool) (selected : option (list N)) :
  promptForMissingTool tool msg toolType opts logger action selected
  = (ShowInformationMessage msg opts
       :: (afterSelection tool toolType logger action selected).1,
     (afterSelection tool toolType logger action selected).2).
Proof.
  unfold promptForMissingTool. rewrite sequence_emit. simpl.
  destruct (afterSelection tool toolType logger action selected) as [es [e|]];
    simpl; [done|]. by rewrite app_nil_r.
Qed.

(** X13: nothing is installed unless the selected item is [Install].  The
    message is shown with the items of [opts] and no other; on
    [Don't Show Again] the action is called, once, and nothing else is
    done (a [TypeError] when no action was given); on any other item, or
    when the message is dismissed, nothing follows.  In none of these
    cases is a process spawned or a command executed. *)
Theorem only_Install_installs (tool msg toolType : list N) (opts : list (list N))
    (logger action : bool) (selected : option (list N)) :
  selected ≠ Some (js "Install") →
  promptForMissingTool tool msg toolType opts logger action selected
  = (if bool_decide (selected = Some (js "Don't Show Again"))
     then if action then ([ShowInformationMessage msg opts; Action], None)
          else ([ShowInformationMessage msg opts], Some TypeError)
     else ([ShowInformationMessage msg opts], None)) ∧
  Forall (λ e, installs e = false)
    (promptForMissingTool tool msg toolType opts logger action selected).1.
Proof.
  intros Hs. rewrite promptForMissingTool_events. unfold afterSelection.
  rewrite bool_decide_eq_false_2 by done.
  destruct (bool_decide (selected = Some (js "Don't Show Again"))), action;
    split; repeat constructor.
Qed.

Lemma only_Install_installs_witness :
  promptForMissingTool (js "fortls") (js "Install fortls?") (js "Python")
    [js "Install"; js "Don't Show Again"] true true None
  = ([ShowInformationMessage (js "Install fortls?")
        [js "Install"; js "Don't Show Again"]], None).
Proof.
  refine (proj1 (only_Install_installs (js "fortls") (js "Install fortls?")
                   (js "Python") [js "Install"; js "Don't Show Again"]
                   true true None _)).
  discriminate.
Defined.

Lemma item_Install_differs :
  Some (js "Don't Show Again") ≠ Some (js "Install").
Proof. vm_compute. discriminate. Qed.

(** X14: what a call does, told from its arguments alone.  A process is
    spawned or a command executed exactly when [Install] is selected and
    the tool type is [Python], or [VSExt] with a logger.  The action is
    called exactly when [Don't Show Again] is selected and an action was
    given.  The call throws exactly when [Install] is selected for a tool
    type other than [Python] without a logger, or [Don't Show Again]
    without an action, and then with a [TypeError].  An error message is
    shown exactly when [Install] is selected for a tool type that is
    neither [Python] nor [VSExt], with a logger. *)
Theorem prompt_effects_iff (tool msg toolType : list N) (opts : list (list N))
    (logger action : bool) (selected : option (list N)) :
  let r := promptForMissingTool tool msg toolType opts logger action selected in
  (Exists (λ e, installs e = true) r.1 ↔
     selected = Some (js "Install") ∧
     (toolType = js "Python" ∨ (toolType = js "VSExt" ∧ logger = true))) ∧
  (Action ∈ r.1 ↔ selected = Some (js "Don't Show Again") ∧ action = true) ∧
  (∀ e, r.2 = Some e ↔
     e = TypeError ∧
     ((selected = Some (js "Install") ∧ toolType ≠ js "Python" ∧ logger = false) ∨
      (selected = Some (js "Don't Show Again") ∧ action = false))) ∧
  ((∃ m, ShowErrorMessage m ∈ r.1) ↔
     selected = Some (js "Install") ∧ toolType ≠ js "Python" ∧
     toolType ≠ js "VSExt" ∧ logger = true).
Proof.
  pose proof item_Install_differs as Hitems.
  cbv zeta. rewrite promptForMissingTool_events. unfold afterSelection.
  unfold installPythonTool, logInfo, logError, emit, throw.
  repeat case_bool_decide; destruct logger, action; cbn [sequence fst snd app];
    (split_and!; [ rewrite !Exists_cons, Exists_nil; cbn [installs]
                 | rewrite ?elem_of_cons, ?elem_of_nil
                 | intros e
                 | split; [intros [m Hm]; revert Hm;
                           rewrite ?elem_of_cons, ?elem_of_nil|intros ?] ]);
    try (by intuition congruence);
    try (by intuition (try congruence; eauto using elem_of_list_here,
                         elem_of_list_further));
    try (by eexists; do 2 right; left).
Qed.

(** X15: [Install] without a logger.  For [Python], [pip] is spawned all
    the same; for [VSExt] the first log entry throws a [TypeError] before
    any command is executed, so nothing is installed; for every other tool
    type the log entry throws before the error message is shown. *)
Theorem Install_without_logger (tool msg toolType : list N) (opts : list (list N))
    (action : bool) :
  promptForMissingTool tool msg (js "Python") opts false action (Some (js "Install"))
  = ([ShowInformationMessage msg opts; Spawn (js "pip") (pipArguments tool)], None) ∧
  (toolType ≠ js "Python" →
   promptForMissingTool tool msg toolType opts false action (Some (js "Install"))
   = ([ShowInformationMessage msg opts], Some TypeError)).
Proof.
  split; [done|].
  intros Hp. rewrite promptForMissingTool_events. unfold afterSelection.
  rewrite bool_decide_eq_true_2 by done.
  rewrite bool_decide_eq_false_2 by done.
  by destruct (bool_decide (toolType = js "VSExt")).
Qed.

Lemma Install_without_logger_witness :
  promptForMissingTool (js "hansec.fortran-ls") (js "Install?") (js "VSExt")
    [js "Install"] false false (Some (js "Install"))
  = ([ShowInformationMessage (js "Install?") [js "Install"]], Some TypeError).
Proof.
  refine (proj2 (Install_without_logger (js "hansec.fortran-ls") (js "Install?")
                   (js "VSExt") [js "Install"] false) _).
  vm_compute. discriminate.
Defined.

(** ** [FortranDocumentSelector] *)

(** X16: the selector always holds two filters, of scheme [file], for the
    languages [FortranFreeForm] and [FortranFixedForm] in this order.
    Without a folder they have no pattern; with a folder both have the
    pattern of the folder's path followed by [/**/*], so two folders give
    the same selector exactly when their paths are equal, whatever their
    names. *)
Theorem FortranDocumentSelector_filters (folder : option WorkspaceFolder) :
  language <$> FortranDocumentSelector folder
  = [js "FortranFreeForm"; js "FortranFixedForm"] ∧
  scheme <$> FortranDocumentSelector folder = [js "file"; js "file"] ∧
  pattern <$> FortranDocumentSelector folder
  = replicate 2 ((λ f, fsPath f ++ js "/**/*") <$> folder) ∧
  (∀ f1 f2, FortranDocumentSelector (Some f1) = FortranDocumentSelector (Some f2)
            ↔ fsPath f1 = fsPath f2) ∧
  (∀ f, FortranDocumentSelector (Some f) ≠ FortranDocumentSelector None).
Proof.
  split_and!; try by destruct folder.
  intros f1 f2. split.
  - intros [= H%app_inv_tail]. done.
  - unfold FortranDocumentSelector. by intros ->.
Qed.
